(** * media_sorter.py: a shallow embedding of [MediaSorter]

    The development follows the source file top to bottom:
    - [Approximator] and [Binary64]: the mediant search of [_apply_limiter];
    - [Allocator]: the output directory search of [_generate_unique_path];
    - [Probe] and [FullProbe]: the two-tier dimension lookup of
      [_get_dimensions];
    - [Pipeline]: the per-file loop of [run] and [_print_summary].

    Numbers.  Python integers are unbounded, hence [Z]; a float is the
    rational number it stands for, hence [Q].  The search of
    [_apply_limiter] is given twice.  [Approximator] is the search in exact
    arithmetic: the ratio is any rational and the tests [ratio_val * d > n]
    and [ratio_val * d == n] compare rationals.  It carries what no rounding
    changes: that the loop ends, the signs, the sentinel, lowest terms, the
    order of the results.  [Binary64] is the search as Python computes it:
    the quotient [width / height] and every product [ratio_val * d] are
    rounded to the nearest binary64 number, ties to even, and a float is
    compared with an integer exactly.  It carries what relates the result to
    the quotient of the two integers, which holds in a range of sizes only,
    and the inputs on which the two searches differ.  The byte total in MiB
    of [_print_summary] is a rounded quotient in the same way.

    Collaborators (Pillow, hachoir, the file system, logging) are parameters
    of the sections that use them, so that every statement holds whatever
    they do.  Exceptions are the subclasses of [Exception], which is what
    [except Exception] catches. *)

From Stdlib Require Import ZArith QArith Qabs Qround Qpower Lia Lqa List String Ascii Bool.
From Stdlib Require PrimFloat SpecFloat FloatOps Uint63.
From stdpp Require Import base decidable option list gmap strings pretty.

Local Open Scope Z_scope.

(* ===================================================================== *)
(** * Python and pathlib vocabulary                                       *)
(* ===================================================================== *)

Module Py.

(** The exception classes the source names or can meet; every other
    subclass of [Exception] is [OtherException]. *)
Inductive exn_class : Type :=
| UnidentifiedImageError
| IOError
| ValueError
| ZeroDivisionError
| OverflowError
| OtherException.

Record exn : Type := Exn { exn_cls : exn_class; exn_msg : string }.

(** A call either raises or returns. *)
Definition result (A : Type) : Type := (exn + A)%type.

(** A pure path is the list of its components; [Path('.')] has none. *)
Definition path : Type := list string.

Definition name (p : path) : string := List.last p "".
Definition parent (p : path) : path := removelast p.
Definition joinpath (p : path) (s : string) : path := p ++ [s].
(** [str(p)] of a relative path; the path without components is [Path('.')]. *)
Definition str_path (p : path) : string :=
  match p with
  | [] => "."
  | _ => String.concat "/" p
  end.

(** [name[i:]] for [i = name.rfind('.')], if there is a dot. *)
Fixpoint from_last_dot (s : string) : option string :=
  match s with
  | EmptyString => None
  | String c s' =>
      match from_last_dot s' with
      | Some r => Some r
      | None => if Ascii.eqb c "." then Some s else None
      end
  end.

(** [PurePath.suffix]: the dot is neither the first nor the last character
    of the name. *)
Definition suffix (p : path) : string :=
  match name p with
  | EmptyString => ""
  | String _ rest =>
      match from_last_dot rest with
      | Some r => if (1 <? String.length r)%nat then r else ""
      | None => ""
      end
  end.

(** [str.lower] as far as a comparison with ASCII suffixes can tell.
    Strings are UTF-8: the letters A-Z are lowered, and so is the Kelvin
    sign U+212A (the bytes 226, 132, 170), the only other character whose
    lower case is made of ASCII characters; every other character outside
    ASCII is left as it is, where Python may replace it by another character
    outside ASCII. *)
Definition lower_ascii (c : ascii) : ascii :=
  let n := nat_of_ascii c in
  if ((65 <=? n) && (n <=? 90))%nat then ascii_of_nat (n + 32) else c.

Fixpoint lower (s : string) : string :=
  match s with
  | EmptyString => EmptyString
  | String "226" (String "132" (String "170" s')) => String "k" (lower s')
  | String c s' => String (lower_ascii c) (lower s')
  end.

End Py.

(* ===================================================================== *)
(** * The mediant search ([_apply_limiter], lines 51-63), exactly         *)
(* ===================================================================== *)

Module Approximator.

(** A fraction is the Python pair [(numerator, denominator)]. *)
Definition fraction : Type := Z * Z.

Definition mediant_of (lower upper : fraction) : fraction :=
  (fst lower + fst upper, snd lower + snd upper).

(** The exact quotient of [width] by [height], for [height <> 0]; the
    float of line 101 is [Binary64.truediv]. *)
Definition ratio_of (width height : Z) : Q := inject_Z width / inject_Z height.

Section Search.

Variable limiter : Z.
Variable ratio_val : Q.

(** The three-way test of the loop body: [ratio_val * mediant[1]] against
    [mediant[0]]. *)
Definition test (mediant : fraction) : comparison :=
  Qcompare (ratio_val * inject_Z (snd mediant)) (inject_Z (fst mediant)).

(** One turn of [while True]: either the loop returns a fraction, or it
    goes round again with new bounds. *)
Inductive turn : Type :=
| Return (result : fraction)
| Again (lower upper : fraction).

Definition body (lower upper : fraction) : turn :=
  let mediant := mediant_of lower upper in
  match test mediant with
  | Gt => if limiter <? snd mediant then Return upper else Again mediant upper
  | Eq => Return mediant
  | Lt => if limiter <? snd mediant then Return lower else Again lower mediant
  end.

(** The loop, with a bound on the number of turns. [None] means that the
    bound was reached before the loop returned. *)
Fixpoint loop (fuel : nat) (lower upper : fraction) : option fraction :=
  match fuel with
  | O => None
  | S fuel' =>
      match body lower upper with
      | Return result => Some result
      | Again lower' upper' => loop fuel' lower' upper'
      end
  end.

(** A number of turns that is always enough (see [loop_enough]). *)
Definition turns : nat :=
  S (Z.to_nat limiter + Z.to_nat (Qnum ratio_val)).

Definition _apply_limiter : option fraction := loop turns (0, 1) (1, 0).

End Search.

(** ** What the loop keeps true *)

Section Invariants.

Variable limiter : Z.
Variable ratio_val : Q.

(** Signs: of the two bounds [lower = a/b] and [upper = c/d], only the upper
    one can have the denominator 0. *)
Record shape (lower upper : fraction) : Prop := Shape {
  sh_a : 0 <= fst lower;
  sh_b : 1 <= snd lower;
  sh_c : 1 <= fst upper;
  sh_d : 0 <= snd upper;
}.

(** The quantity that decreases at every turn that does not return. *)
Definition slack (lower upper : fraction) : nat :=
  (Z.to_nat (limiter + 1 - (snd lower + snd upper))
   + (if (snd upper =? 0)%Z
      then Z.to_nat (Qnum ratio_val * snd lower - fst lower * QDen ratio_val)
      else 0))%nat.

(** For [ratio_val >= 0] the loop keeps [lower <= ratio_val < upper] (the
    sentinel [1/0] being above everything), the two bounds are neighbours in
    the Stern-Brocot tree ([b*c - a*d = 1]), and a bound has only ever been
    replaced by a mediant whose denominator passed the limiter test. *)
Record bracket (lower upper : fraction) : Prop := Bracket {
  br_shape : shape lower upper;
  br_det : snd lower * fst upper - fst lower * snd upper = 1;
  br_lo : fst lower * QDen ratio_val <= Qnum ratio_val * snd lower;
  br_up : Qnum ratio_val * snd upper < fst upper * QDen ratio_val;
  br_lim_b : snd lower <= Z.max 1 limiter;
  br_lim_d : snd upper <= Z.max 0 limiter;
}.

(** The three ways in which the body returns. *)
Inductive stop (lower upper : fraction) : fraction -> Prop :=
| stop_exact :
    let m := mediant_of lower upper in
    Qnum ratio_val * snd m = fst m * QDen ratio_val -> stop lower upper m
| stop_above :
    let m := mediant_of lower upper in
    fst m * QDen ratio_val < Qnum ratio_val * snd m -> limiter < snd m ->
    stop lower upper upper
| stop_below :
    let m := mediant_of lower upper in
    Qnum ratio_val * snd m < fst m * QDen ratio_val -> limiter < snd m ->
    stop lower upper lower.

End Invariants.

(** The rational a fraction with a positive denominator stands for. *)
Definition value (f : fraction) : Q := fst f # Z.to_pos (snd f).

(** [result] is at least as close to [ratio_val] as every fraction whose
    denominator lies between 1 and [limiter]. *)
Definition closest (limiter : Z) (ratio_val : Q) (result : fraction) : Prop :=
  forall n d, 1 <= d <= limiter ->
    (Qabs (value result - ratio_val) <= Qabs (value (n, d) - ratio_val))%Q.

End Approximator.

(* ===================================================================== *)
(** * The mediant search as Python computes it (binary64)                 *)
(* ===================================================================== *)

Module Binary64.

Import Py Approximator.

(** ** Rounding to binary64

    The finite binary64 numbers are the [m * 2^e] with [|m| < 2^53] and
    [-1074 <= e <= 971]. *)
Definition pow2 (e : Z) : Q := (2 ^ e)%Q.

(** For [x > 0], the [e] with [2^e <= x < 2^(e+1)] ([ilog2_spec]). *)
Definition ilog2 (x : Q) : Z :=
  let e0 := Z.log2 (Qnum x) - Z.log2 (QDen x) in
  if Qle_bool (pow2 e0) x then e0 else e0 - 1.

(** The integer nearest to [x], the even one of the two at a tie. *)
Definition nearest_even (x : Q) : Z :=
  let f := Qfloor x in
  match Qcompare (x - inject_Z f) (1 # 2) with
  | Lt => f
  | Gt => f + 1
  | Eq => if Z.even f then f else f + 1
  end.

(** The exponent of the last of the 53 bits of [x > 0]; it is -1074 for
    the subnormal numbers. *)
Definition exponent (x : Q) : Z := Z.max (ilog2 x - 52) (-1074).

(** [x > 0] rounded to a multiple of [2^exponent]. *)
Definition round_pos (x : Q) : Q :=
  let e := exponent x in (inject_Z (nearest_even (x / pow2 e)) * pow2 e)%Q.

(** The result of an operation on finite floats, none of which is 0/0 or
    the like here: a finite number or an infinity. *)
Inductive float64 : Type :=
| Finite (q : Q)
| Infinite (negative : bool).

(** Round to nearest, ties to even; what rounds to [2^1024] or more
    overflows. *)
Definition round64 (x : Q) : float64 :=
  match Qcompare x 0 with
  | Eq => Finite 0
  | Gt => let y := round_pos x in
          if Qle_bool (pow2 1024) y then Infinite false else Finite y
  | Lt => let y := round_pos (- x) in
          if Qle_bool (pow2 1024) y then Infinite true else Finite (- y)
  end.

(** [a / b] on integers (line 101): the quotient correctly rounded. *)
Definition truediv (a b : Z) : result Q :=
  if b =? 0 then inl (Exn ZeroDivisionError "division by zero")
  else match round64 (inject_Z a / inject_Z b) with
       | Finite q => inr q
       | Infinite _ =>
           inl (Exn OverflowError "integer division result too large for a float")
       end.

(** [float(n)], the conversion that [ratio_val * n] applies to [n]. *)
Definition of_int (n : Z) : result Q :=
  match round64 (inject_Z n) with
  | Finite q => inr q
  | Infinite _ => inl (Exn OverflowError "int too large to convert to float")
  end.

(** The order of a float and an integer, which Python decides exactly. *)
Definition compare_int (x : float64) (n : Z) : comparison :=
  match x with
  | Finite q => Qcompare q (inject_Z n)
  | Infinite false => Gt
  | Infinite true => Lt
  end.

(** ** The search (lines 51-63) *)

Section Search.

Variable limiter : Z.
Variable ratio_val : Q.

(** The three-way test of the loop body: the float [ratio_val * mediant[1]]
    against the integer [mediant[0]].  The conversion of [mediant[1]] raises
    if it is too large for a float. *)
Definition test (mediant : fraction) : result comparison :=
  match of_int (snd mediant) with
  | inl e => inl e
  | inr d => inr (compare_int (round64 (ratio_val * d)) (fst mediant))
  end.

(** One turn of [while True]: the loop returns a fraction, goes round
    again with new bounds, or raises. *)
Inductive turn : Type :=
| Return (result : fraction)
| Again (lower upper : fraction)
| Raise (e : exn).

Definition body (lower upper : fraction) : turn :=
  let mediant := mediant_of lower upper in
  match test mediant with
  | inl e => Raise e
  | inr Gt => if limiter <? snd mediant then Return upper else Again mediant upper
  | inr Eq => Return mediant
  | inr Lt => if limiter <? snd mediant then Return lower else Again lower mediant
  end.

(** The loop, with a bound on the number of turns. [None] means that the
    bound was reached before the loop returned. *)
Fixpoint loop (fuel : nat) (lower upper : fraction)
  : option (result fraction) :=
  match fuel with
  | O => None
  | S fuel' =>
      match body lower upper with
      | Return result => Some (inr result)
      | Raise e => Some (inl e)
      | Again lower' upper' => loop fuel' lower' upper'
      end
  end.

(** A number of turns that is enough in the range of sizes of
    [apply_limiter64_final]. *)
Definition turns : nat :=
  S (Z.to_nat limiter + Z.to_nat (Qfloor ratio_val + 2)).

Definition _apply_limiter : option (result fraction) :=
  loop turns (0, 1) (1, 0).

End Search.

(** [self._apply_limiter(width / height)], the call of lines 101-102. *)
Definition approximate (limiter width height : Z)
  : option (result fraction) :=
  match truediv width height with
  | inl e => Some (inl e)
  | inr ratio_val => _apply_limiter limiter ratio_val
  end.

(** ** What the loop keeps true, for [ratio_val = width / height] *)

Section Invariants.

Variable limiter : Z.
Variables width height : Z.

(** The two bounds [lower = a/b] and [upper = c/d] enclose the quotient
    [width / height] (the sentinel [1/0] being above everything), they are
    neighbours in the Stern-Brocot tree and their denominators passed the
    limiter test.  A rounded test can take a bound that equals the quotient,
    so neither inequality is strict. *)
Record between (lower upper : fraction) : Prop := Between {
  bt_shape : shape lower upper;
  bt_det : snd lower * fst upper - fst lower * snd upper = 1;
  bt_lo : fst lower * height <= width * snd lower;
  bt_up : width * snd upper <= fst upper * height;
  bt_lim_b : snd lower <= limiter;
  bt_lim_d : snd upper <= limiter;
}.

(** The three ways in which the body returns: the mediant, only when it is
    the quotient itself; a bound, when the mediant is over the limiter and
    not on the other side of the quotient. *)
Inductive stop (lower upper : fraction) : fraction -> Prop :=
| stop_tie :
    let m := mediant_of lower upper in
    width * snd m = fst m * height -> stop lower upper m
| stop_above :
    let m := mediant_of lower upper in
    fst m * height <= width * snd m -> limiter < snd m ->
    stop lower upper upper
| stop_below :
    let m := mediant_of lower upper in
    width * snd m <= fst m * height -> limiter < snd m ->
    stop lower upper lower.

(** The quantity that decreases at every turn that does not return. *)
Definition slack (lower upper : fraction) : nat :=
  (Z.to_nat (limiter + 1 - (snd lower + snd upper))
   + (if (snd upper =? 0)%Z
      then Z.to_nat (width / height + 1 - fst lower)
      else 0))%nat.

End Invariants.

End Binary64.

(** ** The same roundings by the primitive floats of Rocq

    The primitive floats are binary64; [round64] is compared with them on
    examples (see [round64_agrees_with_primitive_floats]). *)
Module Kernel64.

(** The number a finite float stands for. *)
Definition value (f : PrimFloat.float) : option Q :=
  match FloatOps.Prim2SF f with
  | SpecFloat.S754_zero _ => Some 0%Q
  | SpecFloat.S754_finite negative m e =>
      Some ((if negative then -1 else 1) * inject_Z (Z.pos m) * Binary64.pow2 e)%Q
  | _ => None
  end.

(** The float of an integer from 0 to [2^53], which the conversion does
    not round. *)
Definition of_Z (z : Z) : PrimFloat.float := PrimFloat.of_uint63 (Uint63.of_Z z).

Definition same (x : Binary64.float64) (f : PrimFloat.float) : bool :=
  match x, value f with
  | Binary64.Finite q, Some q' => Qeq_bool q q'
  | _, _ => false
  end.

(** [a / b], and [(a / b) * d], computed in both ways. *)
Definition same_quotient (a b : Z) : bool :=
  same (Binary64.round64 (inject_Z a / inject_Z b))
       (PrimFloat.div (of_Z a) (of_Z b)).

Definition same_product (a b d : Z) : bool :=
  match Binary64.round64 (inject_Z a / inject_Z b) with
  | Binary64.Finite r =>
      same (Binary64.round64 (r * inject_Z d))
           (PrimFloat.mul (PrimFloat.div (of_Z a) (of_Z b)) (of_Z d))
  | Binary64.Infinite _ => false
  end.

End Kernel64.

(* ===================================================================== *)
(** * The output directory ([_generate_unique_path], lines 35-48)         *)
(* ===================================================================== *)

Module Allocator.

Import Py.

Section Allocate.

(** The file system, as far as [Path.exists] sees it: the set of the paths
    that exist. The function only reads it. *)
Variable fs : gset path.
Variable target_path : path.
Variable limiter : Z.

Definition exists_ (p : path) : bool := bool_decide (p ∈ fs).

Definition base_name : string :=
  name target_path +:+ "_sorted_L" +:+ pretty limiter.

(** [parent / f"{base_name} ({counter})"]. *)
Definition numbered (counter : Z) : path :=
  joinpath (parent target_path) (base_name +:+ " (" +:+ pretty counter +:+ ")").

(** The [while True] of lines 44-48, with a bound on the number of turns. *)
Fixpoint search (fuel : nat) (counter : Z) : option path :=
  match fuel with
  | O => None
  | S fuel' =>
      let candidate := numbered counter in
      if negb (exists_ candidate) then Some candidate
      else search fuel' (counter + 1)
  end.

Definition _generate_unique_path : option path :=
  let candidate := joinpath (parent target_path) base_name in
  if negb (exists_ candidate) then Some candidate
  else search (S (size fs)) 1.

End Allocate.

(** ** What two calls give *)

(** The base name being taken, a call returns the numbered candidate with
    the least number from 1 on that does not exist; and once that path
    exists, nothing having been removed, a call returns a candidate with a
    greater number, which does not exist either. *)
Definition fresh_and_increasing
    (fs : gset path) (target_path : path) (limiter : Z) : Prop :=
  exists n1, 1 <= n1 /\
    _generate_unique_path fs target_path limiter
      = Some (numbered target_path limiter n1) /\
    (numbered target_path limiter n1 ∉ fs) /\
    (forall k, 1 <= k < n1 -> numbered target_path limiter k ∈ fs) /\
    forall fs' : gset path,
      fs ⊆ fs' -> numbered target_path limiter n1 ∈ fs' ->
      exists n2, n1 < n2 /\
        _generate_unique_path fs' target_path limiter
          = Some (numbered target_path limiter n2) /\
        (numbered target_path limiter n2 ∉ fs') /\
        numbered target_path limiter n2 <> numbered target_path limiter n1.

End Allocator.

(* ===================================================================== *)
(** * The dimension probe ([_get_dimensions], lines 65-81)                *)
(* ===================================================================== *)

Module Probe.

Import Py.

Definition image_suffixes : list string :=
  [".jpg"; ".jpeg"; ".png"; ".webp"; ".gif"].

(** The error of line 81. *)
Definition unavailable : exn :=
  Exn ValueError "Unsupported format or missing dimension metadata.".

(** What [extractMetadata] hands back: named integer values. [has] and
    [get] are the two methods the source calls; [get] raises [ValueError]
    on a missing key. *)
Definition has (metadata : gmap string Z) (key : string) : bool :=
  bool_decide (is_Some (metadata !! key)).

Definition missing (key : string) : exn :=
  Exn ValueError ("Metadata has no value '" +:+ key +:+ "' (index 0)").

Definition get (metadata : gmap string Z) (key : string) : result Z :=
  match metadata !! key with
  | Some v => inr v
  | None => inl (missing key)
  end.

Section GetDimensions.

Context {Parser : Type}.

(** The collaborators: [Image.open] followed by [img.width, img.height],
    [createParser] and [extractMetadata]. *)
Variable Image_open : path -> result (Z * Z).
Variable createParser : path -> option Parser.
Variable extractMetadata : Parser -> option (gmap string Z).

(** [except (UnidentifiedImageError, IOError)]. *)
Definition caught (e : exn) : bool :=
  match exn_cls e with
  | UnidentifiedImageError | IOError => true
  | _ => false
  end.

(** Lines 74-81. *)
Definition from_metadata (file_path : path) : result (Z * Z) :=
  match createParser file_path with
  | Some parser =>
      match extractMetadata parser with
      | Some metadata =>
          if has metadata "width" then
            match get metadata "width" with
            | inl e => inl e
            | inr width =>
                match get metadata "height" with
                | inl e => inl e
                | inr height => inr (width, height)
                end
            end
          else inl unavailable
      | None => inl unavailable
      end
  | None => inl unavailable
  end.

Definition is_image (file_path : path) : bool :=
  bool_decide (lower (suffix file_path) ∈ image_suffixes).

Definition _get_dimensions (file_path : path) : result (Z * Z) :=
  if is_image file_path then
    match Image_open file_path with
    | inr (width, height) => inr (width, height)
    | inl e => if caught e then from_metadata file_path else inl e
    end
  else from_metadata file_path.

(** ** The cases of the probe *)

(** The decoder was asked and answered. *)
Definition decoded (file_path : path) (width height : Z) : Prop :=
  is_image file_path = true /\ Image_open file_path = inr (width, height).

(** The metadata extractor is asked: the decoder was not, or it failed with
    one of the two exceptions that line 71 catches. *)
Definition falls_back (file_path : path) : Prop :=
  is_image file_path = false \/
  exists e, Image_open file_path = inl e /\ caught e = true.

(** The decoder failed with an exception that line 71 lets through. *)
Definition decoder_raises (file_path : path) (e : exn) : Prop :=
  is_image file_path = true /\ Image_open file_path = inl e /\ caught e = false.

(** What the extractor gives for the file, if anything. *)
Definition extracted (file_path : path) : option (gmap string Z) :=
  match createParser file_path with
  | Some parser => extractMetadata parser
  | None => None
  end.

(** No parser, no metadata, or metadata without a width. *)
Definition no_width (file_path : path) : Prop :=
  match extracted file_path with
  | Some metadata => metadata !! "width" = None
  | None => True
  end.

End GetDimensions.

End Probe.

(* ===================================================================== *)
(** * The dimension probe when every collaborator may raise               *)
(* ===================================================================== *)

(** [createParser] is called outside every [try] (line 74) and
    [extractMetadata] inside [with parser:] only: what either raises leaves
    [_get_dimensions].  Here both may raise, as [Image.open] may. *)
Module FullProbe.

Import Py Probe.

Section GetDimensions.

Context {Parser : Type}.

Variable Image_open : path -> result (Z * Z).
Variable createParser : path -> result (option Parser).
Variable extractMetadata : Parser -> result (option (gmap string Z)).

(** Lines 74-81. *)
Definition from_metadata (file_path : path) : result (Z * Z) :=
  match createParser file_path with
  | inl e => inl e
  | inr (Some parser) =>
      match extractMetadata parser with
      | inl e => inl e
      | inr (Some metadata) =>
          if has metadata "width" then
            match get metadata "width" with
            | inl e => inl e
            | inr width =>
                match get metadata "height" with
                | inl e => inl e
                | inr height => inr (width, height)
                end
            end
          else inl unavailable
      | inr None => inl unavailable
      end
  | inr None => inl unavailable
  end.

Definition _get_dimensions (file_path : path) : result (Z * Z) :=
  if is_image file_path then
    match Image_open file_path with
    | inr (width, height) => inr (width, height)
    | inl e => if caught e then from_metadata file_path else inl e
    end
  else from_metadata file_path.

(** ** The cases of the probe *)

(** What the extractor gives for the file: an exception of [createParser]
    or of [extractMetadata], no metadata (there was no parser, or the parser
    gave none), or the metadata. *)
Definition extracted (file_path : path) : result (option (gmap string Z)) :=
  match createParser file_path with
  | inl e => inl e
  | inr (Some parser) => extractMetadata parser
  | inr None => inr None
  end.

(** No parser, no metadata, or metadata without a width. *)
Definition no_width (file_path : path) : Prop :=
  extracted file_path = inr None \/
  exists metadata,
    extracted file_path = inr (Some metadata) /\ metadata !! "width" = None.

(** Metadata with a width and without a height. *)
Definition no_height (file_path : path) : Prop :=
  exists metadata,
    extracted file_path = inr (Some metadata) /\
    is_Some (metadata !! "width") /\ metadata !! "height" = None.

End GetDimensions.

End FullProbe.

(* ===================================================================== *)
(** * The run ([run] and [_print_summary], lines 83-139)                  *)
(* ===================================================================== *)

Module Pipeline.

Import Py.

Inductive level : Type := INFO | ERROR.

#[global] Instance level_eq_dec : EqDecision level.
Proof. solve_decision. Defined.

(** [collections.Counter] is a dict: its items come in the order in which
    the keys were first inserted. *)
Definition Counter : Type := list (string * Z).

(** [stats[key] += 1]: a missing key counts as 0 and is inserted last. *)
Fixpoint incr (key : string) (stats : Counter) : Counter :=
  match stats with
  | [] => [(key, 1)]
  | (k, c) :: rest =>
      if String.eqb k key then (k, c + 1) :: rest else (k, c) :: incr key rest
  end.

(** The count of a key: that of its first item, 0 without one. *)
Fixpoint count_of (key : string) (stats : Counter) : Z :=
  match stats with
  | [] => 0
  | (k, c) :: rest => if String.eqb k key then c else count_of key rest
  end.

(** [sum(stats.values())]. *)
Definition values_sum (stats : Counter) : Z :=
  foldr (fun item acc => snd item + acc) 0 stats.

(** [max(items, key=itemgetter(1))], to which [most_common(1)] comes down:
    a later item replaces the best one only if its count is strictly
    greater. *)
Fixpoint max_first (best : string * Z) (items : Counter) : string * Z :=
  match items with
  | [] => best
  | item :: rest =>
      if snd best <? snd item then max_first item rest else max_first best rest
  end.

(** [stats.most_common(1)]. *)
Definition most_common_1 (stats : Counter) : list (string * Z) :=
  match stats with
  | [] => []
  | item :: rest => [max_first item rest]
  end.

(** [f"{x:.2f}"]: the nearest multiple of 1/100 of the absolute value,
    ties to the even one (0.125 prints as 0.12, 0.375 as 0.38), printed with
    two decimals after the sign. *)
Definition round_half_even (x : Q) : Z := Binary64.nearest_even x.

Definition two_digits (n : Z) : string :=
  if n <? 10 then "0" +:+ pretty n else pretty n.

Definition unsigned_2f (x : Q) : string :=
  let hundredths := round_half_even (x * 100) in
  pretty (hundredths / 100) +:+ "." +:+ two_digits (hundredths mod 100).

Definition format_2f (x : Q) : string :=
  match (x ?= 0)%Q with
  | Lt => "-" +:+ unsigned_2f (- x)
  | _ => unsigned_2f x
  end.

(** ** Vocabulary for the summary *)

(** The counter after the labels of the files sorted so far, in order. *)
Definition tally (labels : list string) : Counter :=
  foldl (fun stats label => incr label stats) [] labels.

Definition occurrences (label : string) (labels : list string) : Z :=
  Z.of_nat (length (filter (fun l => l = label) labels)).

(** [label] is met in [labels] before [other] is. *)
Definition met_before (labels : list string) (label other : string) : Prop :=
  exists pre post, labels = pre ++ label :: post /\ other ∉ pre.

(** [best] is the first of the items with the greatest count. *)
Definition first_max (stats : Counter) (best : string * Z) : Prop :=
  exists before after,
    stats = before ++ best :: after /\
    Forall (fun item => snd item < snd best) before /\
    Forall (fun item => snd item <= snd best) after.

Definition valid_extensions : list string :=
  [".jpg"; ".jpeg"; ".png"; ".webp"; ".gif"; ".mp4"; ".mkv"; ".mov"].

Definition bar : string := "==============================".
Definition nl : string := String (ascii_of_nat 10) EmptyString.

(** The attributes [__init__] sets and nothing changes afterwards. *)
Record MediaSorter : Type := Sorter {
  target_path : path;
  limiter : Z;
  move_files : bool;
  output_path : path;
}.

(** Lines 26-33; the counters start empty (see [initial]). *)
Definition __init__ (fs : gset path) (target : path) (limiter : Z) (move : bool)
  : option MediaSorter :=
  match Allocator._generate_unique_path fs target limiter with
  | Some out => Some (Sorter target limiter move out)
  | None => None
  end.

Section Run.

Context {World Parser : Type}.

(** The collaborators. Those that change the file system return the new
    one also when they raise. [mkdir_parents] is
    [mkdir(parents=True, exist_ok=True)] and [mkdir] is [mkdir(exist_ok=True)]. *)
Variable Image_open : World -> path -> result (Z * Z).
Variable createParser : World -> path -> option Parser.
Variable extractMetadata : Parser -> option (gmap string Z).
Variable is_dir : World -> path -> bool.
Variable iterdir : World -> path -> list path.
Variable mkdir_parents : path -> World -> result unit * World.
Variable mkdir : path -> World -> result unit * World.
Variable stat_size : World -> path -> result Z.
Variable move : path -> path -> World -> result unit * World.
Variable copy2 : path -> path -> World -> result unit * World.

Variable self : MediaSorter.

(** What a run changes: the file system, the two counters of the sorter,
    the log and the standard output. *)
Record state : Type := State {
  world : World;
  stats : Counter;
  total_size_bytes : Z;
  log : list (level * string);
  stdout : list string;
}.

Definition initial (w : World) : state := State w [] 0 [] [].

(** Statements: they change the state and return or raise. *)
Definition M (A : Type) : Type := state -> result A * state.

Definition ret {A} (x : A) : M A := fun st => (inr x, st).
Definition raise {A} (e : exn) : M A := fun st => (inl e, st).
Definition bind {A B} (m : M A) (k : A -> M B) : M B :=
  fun st =>
    match m st with
    | (inr x, st') => k x st'
    | (inl e, st') => (inl e, st')
    end.

(** [try: m except Exception as e: handler(e)]. *)
Definition try_except (m : M unit) (handler : exn -> M unit) : M unit :=
  fun st =>
    match m st with
    | (inr tt, st') => (inr tt, st')
    | (inl e, st') => handler e st'
    end.

#[local] Instance M_ret : MRet M := @ret.
#[local] Instance M_bind : MBind M := fun A B k m => bind m k.

Definition lift {A} (r : result A) : M A := fun st => (r, st).
Definition read {A} (f : World -> A) : M A := fun st => (inr (f (world st)), st).
Definition on_world (f : World -> result unit * World) : M unit :=
  fun st =>
    let '(r, w) := f (world st) in
    (r, State w (stats st) (total_size_bytes st) (log st) (stdout st)).

Definition logging (lvl : level) (msg : string) : M unit :=
  fun st =>
    (inr tt, State (world st) (stats st) (total_size_bytes st)
               (log st ++ [(lvl, msg)]) (stdout st)).

Definition print (line : string) : M unit :=
  fun st =>
    (inr tt, State (world st) (stats st) (total_size_bytes st)
               (log st) (stdout st ++ [line])).

(** Line 115. *)
Definition count (ratio_folder : string) : M unit :=
  fun st =>
    (inr tt, State (world st) (incr ratio_folder (stats st)) (total_size_bytes st)
               (log st) (stdout st)).

(** Line 116. *)
Definition add_size (file_size : Z) : M unit :=
  fun st =>
    (inr tt, State (world st) (stats st) (total_size_bytes st + file_size)
               (log st) (stdout st)).

(** [width / height], without its rounding. *)
Definition truediv (width height : Z) : M Q :=
  if height =? 0 then raise (Exn ZeroDivisionError "division by zero")
  else ret (Approximator.ratio_of width height).

(** The call of [_apply_limiter]. The loop bound of the model is never
    reached ([apply_limiter_returns]), so the second case never runs. *)
Definition apply_limiter (ratio_val : Q) : M (Z * Z) :=
  match Approximator._apply_limiter (limiter self) ratio_val with
  | Some xy => ret xy
  | None => raise (Exn OtherException "unreachable")
  end.

(** Lines 100-117, the body of [try].  The label is that of the search in
    exact arithmetic; [Binary64.approximate] gives the one that Python
    computes, which is another one only when a rounded test misses or
    invents an exact match. *)
Definition process (file : path) : M unit :=
  '(width, height) ←
    (fun st => lift (Probe._get_dimensions (Image_open (world st))
                       (createParser (world st)) extractMetadata file) st);
  ratio_val ← truediv width height;
  '(x, y) ← apply_limiter ratio_val;
  let ratio_folder := pretty x +:+ "X" +:+ pretty y in
  let subdir := joinpath (output_path self) ratio_folder in
  _ ← on_world (mkdir subdir);
  let destination := joinpath subdir (name file) in
  file_size ← (fun st => lift (stat_size (world st) file) st);
  _ ← on_world (if move_files self then move file destination
                 else copy2 file destination);
  _ ← count ratio_folder;
  _ ← add_size file_size;
  logging INFO ("Sorted: " +:+ name file +:+ " -> " +:+ ratio_folder).

Definition is_valid (file : path) : bool :=
  bool_decide (lower (suffix file) ∈ valid_extensions).

(** Lines 96-120, one turn of [for]. *)
Definition each (file : path) : M unit :=
  if negb (is_valid file) then ret tt
  else try_except (process file)
         (fun e => logging ERROR ("Skipping " +:+ name file +:+ ": " +:+ exn_msg e)).

Fixpoint for_each (files : list path) : M unit :=
  match files with
  | [] => ret tt
  | file :: rest => _ ← each file; for_each rest
  end.

(** Lines 125-139.  The quotient of line 131 is a float: it is rounded, and
    beyond the range of floats the division raises. *)
Definition _print_summary : M unit :=
  _ ← print (nl +:+ bar);
  _ ← print "SORT SUMMARY";
  _ ← print bar;
  total_files ← (fun st => ret (values_sum (stats st)) st);
  size_mb ← (fun st => lift (Binary64.truediv (total_size_bytes st) (1024 * 1024)) st);
  _ ← print ("Total Files Processed: " +:+ pretty total_files);
  _ ← print ("Total Data handled:    " +:+ format_2f size_mb +:+ " MB");
  _ ← (fun st =>
          match stats st with
          | [] => ret tt st
          | _ :: _ =>
              match most_common_1 (stats st) with
              | most_common :: _ =>
                  print ("Most Common Ratio: " +:+ fst most_common +:+ " ("
                         +:+ pretty (snd most_common) +:+ " files)") st
              | [] => raise (Exn OtherException "list index out of range") st
              end
          end);
  print (bar +:+ nl).

(** Lines 83-122. *)
Definition run : M unit :=
  target_is_dir ← read (fun w => is_dir w (target_path self));
  if negb target_is_dir then
    logging ERROR ("Target path " +:+ str_path (target_path self)
                   +:+ " is not a directory.")
  else
    _ ← on_world (mkdir_parents (output_path self));
    _ ← logging INFO ("Starting sort in: " +:+ str_path (target_path self));
    files ← read (fun w => iterdir w (target_path self));
    _ ← for_each files;
    _print_summary.

(** ** Vocabulary for the isolation of failures *)

(** Only the file system differs between the two states. *)
Definition same_counters (st st' : state) : Prop :=
  stats st' = stats st /\ total_size_bytes st' = total_size_bytes st /\
  log st' = log st /\ stdout st' = stdout st.

(** The number of log records of a level. *)
Definition records (lvl : level) (l : list (level * string)) : nat :=
  length (filter (fun r => fst r = lvl) l).

(** The file [file], met after the files [before], raises [e]: it leaves
    one [ERROR] record and the counters as they were, and the loop goes on
    with the files [after], to its end. *)
Definition skipped_and_continued
    (before : list path) (file : path) (after : list path)
    (st : state) (e : exn) : Prop :=
  let st1 := snd (for_each before st) in
  exists st3,
    for_each (before ++ file :: after) st = for_each after st3 /\
    stats st3 = stats st1 /\
    total_size_bytes st3 = total_size_bytes st1 /\
    log st3 = log st1 ++ [(ERROR, "Skipping " +:+ name file +:+ ": " +:+ exn_msg e)] /\
    exists st', for_each after st3 = (inr tt, st').

(** What [_print_summary] prints when the files sorted had the labels
    [labels], in this order: the MiB are [hundredths / 100], written with
    the integer part, a dot and the two digits of [hundredths mod 100]. *)
Definition summary_report (labels : list string) (st : state) : Prop :=
  exists hundredths most_common,
    _print_summary st =
      (inr tt,
       State (world st) (stats st) (total_size_bytes st) (log st)
         (stdout st ++
          [nl +:+ bar; "SORT SUMMARY"; bar;
           "Total Files Processed: " +:+ pretty (Z.of_nat (length labels));
           "Total Data handled:    "
             +:+ (pretty (hundredths / 100) +:+ "."
                  +:+ pretty (hundredths mod 100 / 10) +:+ pretty (hundredths mod 10))
             +:+ " MB"]
          ++ most_common ++ [bar +:+ nl])) /\
    0 <= hundredths /\
    (Qabs (inject_Z hundredths / 100
           - inject_Z (total_size_bytes st) / inject_Z (1024 * 1024)) <= 1 # 200)%Q /\
    (total_size_bytes st = 0 -> hundredths = 0) /\
    match labels with
    | [] => most_common = []
    | _ :: _ =>
        exists label,
          most_common =
            ["Most Common Ratio: " +:+ label +:+ " ("
               +:+ pretty (occurrences label labels) +:+ " files)"] /\
          label ∈ labels /\
          forall other,
            occurrences other labels <= occurrences label labels /\
            (other <> label ->
             occurrences other labels = occurrences label labels ->
             met_before labels label other)
    end.

End Run.

End Pipeline.

(* ===================================================================== *)
(** * A small directory                                                   *)
(* ===================================================================== *)

(** Three pictures, one of them unreadable, and a text file; the file
    system is left abstract ([unit]) and every operation on it succeeds. *)
Module Example.

Import Py Pipeline.

Definition sorter : MediaSorter := Sorter ["in"] 10 false ["in_sorted_L10"].

Definition Image_open (w : unit) (p : path) : result (Z * Z) :=
  if String.eqb (name p) "c.png" then inr (1000, 1000)
  else if String.eqb (name p) "bad.jpg"
       then inl (Exn UnidentifiedImageError "cannot identify image file")
       else inr (1920, 1080).

Definition createParser (w : unit) (p : path) : option unit := None.
Definition extractMetadata (parser : unit) : option (gmap string Z) := None.
Definition mkdir (p : path) (w : unit) : result unit * unit := (inr tt, w).
Definition stat_size (w : unit) (p : path) : result Z := inr 1000000.
Definition copy (src dst : path) (w : unit) : result unit * unit := (inr tt, w).

Definition process : path -> M unit :=
  Pipeline.process Image_open createParser extractMetadata mkdir stat_size copy copy sorter.

Definition for_each : list path -> M unit :=
  Pipeline.for_each Image_open createParser extractMetadata mkdir stat_size copy copy sorter.

Definition files : list path :=
  [["in"; "a.jpg"]; ["in"; "b.JPG"]; ["in"; "c.png"]; ["in"; "bad.jpg"];
   ["in"; "notes.txt"]; ["in"; "d.jpeg"]].

Definition run : M unit :=
  Pipeline.run Image_open createParser extractMetadata
    (fun _ _ => true) (fun _ _ => files) mkdir mkdir stat_size copy copy sorter.

End Example.

(* ===================================================================== *)
(** * The rest of the file: labels, order of fractions, [main]            *)
(* ===================================================================== *)

Module Labels.

(** [f"{x}X{y}"] of line 103, the name of the folder and the key of the
    counter; [process] builds the same string. *)
Definition ratio_folder (x y : Z) : string := pretty x +:+ "X" +:+ pretty y.

(** The letter that separates the two numbers occurs in the string. *)
Fixpoint has_X (s : string) : Prop :=
  match s with
  | EmptyString => False
  | String c s' => c = "X"%char \/ has_X s'
  end.

End Labels.

Module Order.

Import Approximator.

(** [f <= g] for fractions with non-negative denominators, the sentinel
    [1/0] being the greatest. *)
Definition below (f g : fraction) : Prop := fst f * snd g <= fst g * snd f.

(** Two bounds of the search: neighbours, of the signs of [shape]. *)
Definition nested (lower upper : fraction) : Prop :=
  shape lower upper /\ snd lower * fst upper - fst lower * snd upper = 1.

End Order.

Module Main.

Import Py Pipeline.

(** What [parse_args] hands to lines 167-170: the target directory, already
    a path, the limiter and the [--move] flag. *)
Record Namespace : Type := Args {
  directory : path;
  limiter_arg : Z;
  move_arg : bool;
}.

Section Main.

Context {World Parser : Type}.
Variable Image_open : World -> path -> result (Z * Z).
Variable createParser : World -> path -> option Parser.
Variable extractMetadata : Parser -> option (gmap string Z).
Variable is_dir : World -> path -> bool.
Variable iterdir : World -> path -> list path.
Variable mkdir_parents : path -> World -> result unit * World.
Variable mkdir : path -> World -> result unit * World.
Variable stat_size : World -> path -> result Z.
Variable move : path -> path -> World -> result unit * World.
Variable copy2 : path -> path -> World -> result unit * World.

(** The paths that [Path.exists] finds in a file system. *)
Variable existing : World -> gset path.

(** Lines 167-170: the sorter is made, which chooses the output directory
    (line 30), and run. [None] stands for the bound of [Allocator.search],
    which is never reached. *)
Definition main (args : Namespace) (w : World) : option (result unit * state) :=
  match __init__ (existing w) (directory args) (limiter_arg args) (move_arg args) with
  | Some sorter =>
      Some (run Image_open createParser extractMetadata is_dir iterdir
              mkdir_parents mkdir stat_size move copy2 sorter (initial w))
  | None => None
  end.

End Main.

End Main.

(* ===================================================================== *)
(** * Arithmetic of cross-multiplied fractions                            *)
(* ===================================================================== *)

Section Cross.

(** Two neighbours [a/b < c/d] of the Stern-Brocot tree leave room between
    them only for denominators from [b + d] on. *)
Lemma neighbours_gap a b c d x y :
  b * c - a * d = 1 -> 0 <= b -> 0 <= d ->
  a * y < x * b -> x * d < c * y ->
  b + d <= y.
Proof.
  intros Hdet Hb Hd H1 H2.
  assert (E : y = b * (c * y - x * d) + d * (x * b - a * y)).
  { rewrite <- (Z.mul_1_l y) at 1. rewrite <- Hdet. ring. }
  nia.
Qed.

Lemma lowest_terms_unique x y x' y' :
  Z.gcd x y = 1 -> Z.gcd x' y' = 1 -> 1 <= y -> 1 <= y' ->
  x * y' = x' * y -> x = x' /\ y = y'.
Proof.
  intros Hg Hg' Hy Hy' E.
  assert (Hyy : y = y').
  { apply Z.divide_antisym_nonneg; try lia.
    - apply Z.gauss with x; [exists x'; lia|]. rewrite Z.gcd_comm. exact Hg.
    - apply Z.gauss with x'; [exists x; lia|]. rewrite Z.gcd_comm. exact Hg'. }
  subst y'. split; [nia|reflexivity].
Qed.

Lemma cross_lt_le a b c d e f :
  a * d < c * b -> c * f <= e * d -> 0 < b -> 0 < d -> 0 < f -> a * f < e * b.
Proof.
  intros H1 H2 Hb Hd Hf. apply (Z.mul_lt_mono_pos_l d); [assumption|].
  assert (a * d * f < c * b * f) by (apply Z.mul_lt_mono_pos_r; assumption).
  assert (c * f * b <= e * d * b) by (apply Z.mul_le_mono_nonneg_r; lia).
  lia.
Qed.

Lemma cross_le_lt a b c d e f :
  a * d <= c * b -> c * f < e * d -> 0 < b -> 0 < d -> 0 < f -> a * f < e * b.
Proof.
  intros H1 H2 Hb Hd Hf. apply (Z.mul_lt_mono_pos_l d); [assumption|].
  assert (a * d * f <= c * b * f) by (apply Z.mul_le_mono_nonneg_r; lia).
  assert (c * f * b < e * d * b) by (apply Z.mul_lt_mono_pos_r; assumption).
  lia.
Qed.

End Cross.

(* ===================================================================== *)
(** * Facts about the mediant search in exact arithmetic                  *)
(* ===================================================================== *)

Import Approximator.

Lemma ratio_of_num_den w h :
  1 <= h -> Qnum (ratio_of w h) = w /\ QDen (ratio_of w h) = h.
Proof.
  intros Hh. destruct h as [|h|h]; try lia.
  unfold ratio_of, Qdiv, Qinv, Qmult. cbn. split; [lia|reflexivity].
Qed.

Section ApproximatorFacts.

Variable limiter : Z.
Variable ratio_val : Q.

Local Abbreviation p := (Qnum ratio_val).
Local Abbreviation q := (QDen ratio_val).
Local Abbreviation body := (Approximator.body limiter ratio_val).
Local Abbreviation loop := (Approximator.loop limiter ratio_val).
Local Abbreviation slack := (Approximator.slack limiter ratio_val).
Local Abbreviation bracket := (Approximator.bracket limiter ratio_val).
Local Abbreviation stop := (Approximator.stop limiter ratio_val).

(** The test of the loop, on integers: [p/q * d] against [n]. *)
Lemma test_cross (n d : Z) :
  test ratio_val (n, d) = (p * d ?= n * q).
Proof.
  unfold test, Qcompare. cbn.
  rewrite Pos.mul_1_r, Z.mul_1_r. reflexivity.
Qed.

Lemma shape_init : shape (0, 1) (1, 0).
Proof. split; cbn; lia. Qed.

Lemma body_again lower upper lower' upper' :
  shape lower upper ->
  body lower upper = Again lower' upper' ->
  shape lower' upper' /\ (slack lower' upper' < slack lower upper)%nat.
Proof.
  destruct lower as [a b], upper as [c d].
  intros [Ha Hb Hc Hd]; cbn in Ha, Hb, Hc, Hd.
  unfold Approximator.body, mediant_of. rewrite test_cross. cbn [fst snd].
  assert (Hq : 1 <= q) by lia.
  destruct (Z.compare_spec (p * (b + d)) ((a + c) * q)) as [He|Hl|Hg];
    [discriminate| |];
    destruct (Z.ltb_spec limiter (b + d)) as [Hlim|Hlim]; try discriminate;
    intros [= <- <-]; (split; [split; cbn; lia|]);
    unfold Approximator.slack; cbn [fst snd].
  - destruct (Z.eqb_spec (b + d) 0); [lia|].
    destruct (d =? 0); lia.
  - destruct (Z.eqb_spec d 0) as [->|Hd0]; [|lia].
    rewrite !Z.add_0_r in *. nia.
Qed.

(** Enough turns make the loop return. *)
Lemma loop_enough fuel : forall lower upper,
  shape lower upper ->
  (slack lower upper < fuel)%nat ->
  exists result, loop fuel lower upper = Some result.
Proof.
  induction fuel as [|fuel IH]; intros lower upper Hs Hlt; [lia|].
  cbn [Approximator.loop].
  destruct (body lower upper) as [result|lower' upper'] eqn:Hbody.
  - eauto.
  - destruct (body_again _ _ _ _ Hs Hbody) as [Hs' Hdec].
    apply IH; [assumption|lia].
Qed.

(** More turns than needed change nothing. *)
Lemma loop_more fuel : forall lower upper result (extra : nat),
  loop fuel lower upper = Some result ->
  loop (fuel + extra) lower upper = Some result.
Proof.
  induction fuel as [|fuel IH]; intros lower upper result extra; [discriminate|].
  cbn [Approximator.loop Nat.add].
  destruct (body lower upper); [trivial|apply IH].
Qed.

Lemma bracket_init : 0 <= p -> bracket (0, 1) (1, 0).
Proof. intros Hp. split; [apply shape_init|cbn; lia..]. Qed.

Lemma bracket_again lower upper lower' upper' :
  bracket lower upper ->
  body lower upper = Again lower' upper' ->
  bracket lower' upper'.
Proof.
  intros Hbr Hbody.
  destruct (body_again _ _ _ _ (br_shape _ _ _ _ Hbr) Hbody) as [Hs' _].
  destruct Hbr as [_ Hdet Hlo Hup Hlb Hld].
  destruct lower as [a b], upper as [c d]. cbn [fst snd] in *.
  revert Hbody. unfold Approximator.body, mediant_of. rewrite test_cross. cbn [fst snd].
  destruct (Z.compare_spec (p * (b + d)) ((a + c) * q)) as [He|Hl|Hg];
    [discriminate| |];
    destruct (Z.ltb_spec limiter (b + d)) as [Hlim|Hlim]; try discriminate;
    intros [= <- <-]; (split; [exact Hs'|cbn [fst snd]; lia..]).
Qed.

Lemma body_return lower upper result :
  body lower upper = Return result ->
  stop lower upper result.
Proof.
  unfold Approximator.body. destruct (mediant_of lower upper) as [n d] eqn:Hm.
  rewrite test_cross. cbn [fst snd].
  destruct (Z.compare_spec (p * d) (n * q)) as [He|Hl|Hg].
  - intros [= <-]. rewrite <- Hm. apply stop_exact. rewrite Hm. exact He.
  - destruct (Z.ltb_spec limiter d) as [Hlim|Hlim]; [|discriminate].
    intros [= <-]. apply stop_below; rewrite Hm; assumption.
  - destruct (Z.ltb_spec limiter d) as [Hlim|Hlim]; [|discriminate].
    intros [= <-]. apply stop_above; rewrite Hm; cbn [fst snd]; [lia|assumption].
Qed.

(** Whatever the loop returns, it returns it from a bracketing pair. *)
Lemma loop_final fuel : forall lower upper result,
  bracket lower upper ->
  loop fuel lower upper = Some result ->
  exists lo up, bracket lo up /\ stop lo up result.
Proof.
  induction fuel as [|fuel IH]; intros lower upper result Hbr; [discriminate|].
  cbn [Approximator.loop].
  destruct (body lower upper) as [r|lower' upper'] eqn:Hbody.
  - intros [= <-]. exists lower, upper. split; [assumption|].
    apply body_return, Hbody.
  - apply IH. eapply bracket_again; eassumption.
Qed.

(** The search always returns (no assumption on the limiter or the ratio). *)
Lemma apply_limiter_returns :
  exists result, _apply_limiter limiter ratio_val = Some result.
Proof.
  apply loop_enough; [apply shape_init|].
  unfold Approximator.slack, turns. cbn [fst snd]. rewrite Z.eqb_refl.
  replace (limiter + 1 - (1 + 0)) with limiter by lia.
  replace (p * 1 - 0 * q) with p by lia. lia.
Qed.

Lemma apply_limiter_final result :
  0 <= p ->
  _apply_limiter limiter ratio_val = Some result ->
  exists lo up, bracket lo up /\ stop lo up result.
Proof.
  intros Hp. apply loop_final, bracket_init, Hp.
Qed.

(** Signs and size of what is returned, for a limiter of at least 1: the
    denominator exceeds the limiter only on an exact match. *)
Lemma stop_bounds lo up result :
  1 <= limiter ->
  bracket lo up -> stop lo up result ->
  0 <= fst result /\ 1 <= snd result /\
  (snd result <= limiter \/
   (p * snd result = fst result * q /\ snd result <= 2 * limiter)).
Proof.
  intros Hlim [[Ha Hb Hc Hd] Hdet Hlo Hup Hlb Hld] Hstop.
  destruct lo as [a b], up as [c d]. cbn [fst snd] in *.
  destruct Hstop as [m He|m Hg Hl|m Hg Hl]; subst m;
    unfold mediant_of in *; cbn [fst snd] in *; lia.
Qed.

End ApproximatorFacts.

(** ** The claims about [_apply_limiter] *)

(** Comparisons of rationals, cross-multiplied. *)
Ltac cross :=
  unfold Qlt, Qle, Qeq, value, mediant_of in *;
  cbn [Qnum Qden fst snd] in *;
  rewrite ?Z2Pos.id in * by lia.

Lemma Qle_0_num (r : Q) : (0 <= r)%Q -> 0 <= Qnum r.
Proof. unfold Qle. cbn. lia. Qed.

(** For a limiter of at least 1 and a ratio of at least 0, the numerator
    returned is not negative and the denominator is at least 1; it is at
    most the limiter unless the fraction returned is the ratio itself. *)
Lemma apply_limiter_bounds (limiter : Z) (ratio_val : Q) :
  1 <= limiter -> (0 <= ratio_val)%Q ->
  exists x y,
    _apply_limiter limiter ratio_val = Some (x, y) /\
    0 <= x /\ 1 <= y /\
    (y <= limiter \/ (value (x, y) == ratio_val)%Q /\ y <= 2 * limiter).
Proof.
  intros Hlim Hr.
  destruct (apply_limiter_returns limiter ratio_val) as [[x y] Hres].
  exists x, y. split; [assumption|].
  destruct (apply_limiter_final _ _ _ (Qle_0_num _ Hr) Hres) as (lo & up & Hbr & Hstop).
  destruct (stop_bounds _ _ _ _ _ Hlim Hbr Hstop) as (Hx & Hy & Hz).
  cbn [fst snd] in *. repeat split; try assumption.
  destruct Hz as [Hz|[Hz1 Hz2]]; [left; assumption|right].
  split; [|assumption]. cross. lia.
Qed.

(** The known values: 1920x1080 and 1000x1000 with the limiter 10, the
    ultrawide 2560x1080, and a width of 0. *)
Example apply_limiter_1920_1080 :
  _apply_limiter 10 (ratio_of 1920 1080) = Some (16, 9).
Proof. reflexivity. Qed.

Example apply_limiter_1000_1000 :
  _apply_limiter 10 (ratio_of 1000 1000) = Some (1, 1).
Proof. reflexivity. Qed.

Example apply_limiter_2560_1080 :
  _apply_limiter 10 (ratio_of 2560 1080) = Some (19, 8).
Proof. reflexivity. Qed.

Example apply_limiter_zero_width :
  _apply_limiter 10 (ratio_of 0 1080) = Some (0, 1).
Proof. reflexivity. Qed.

(** C1 (the code departs from the claim). For the ratio 1/2 and the limiter
    1 the search returns [(1, 2)], and for 1920/1080 and the limiter 5 it
    returns [(16, 9)]: the branch of the exact match returns the mediant
    without the limiter test of the two other branches, so the denominator
    returned is greater than the limiter. *)
Theorem apply_limiter_exact_match_exceeds_limiter :
  _apply_limiter 1 (ratio_of 1 2) = Some (1, 2) /\
  _apply_limiter 5 (ratio_of 1920 1080) = Some (16, 9).
Proof. split; reflexivity. Qed.

(** C3. For every limiter, also below 1, and every ratio, the loop of
    [_apply_limiter] returns after finitely many turns: [turns] of them are
    enough, and any larger number of turns gives the same result. *)
Theorem apply_limiter_terminates (limiter : Z) (ratio_val : Q) :
  exists result,
    _apply_limiter limiter ratio_val = Some result /\
    forall fuel, (turns limiter ratio_val <= fuel)%nat ->
      loop limiter ratio_val fuel (0, 1) (1, 0) = Some result.
Proof.
  destruct (apply_limiter_returns limiter ratio_val) as [result Hres].
  exists result. split; [assumption|].
  intros fuel Hfuel.
  replace fuel
    with (turns limiter ratio_val + (fuel - turns limiter ratio_val))%nat by lia.
  apply loop_more. exact Hres.
Qed.

(** In exact arithmetic, a fraction in lowest terms whose denominator is
    not over the limiter is returned as it is, whatever its size. *)
Lemma exact_search_idempotent (limiter x0 y0 : Z) :
  0 <= x0 -> 1 <= y0 <= limiter -> Z.gcd x0 y0 = 1 ->
  _apply_limiter limiter (ratio_of x0 y0) = Some (x0, y0).
Proof.
  intros Hx0 Hy0 Hgcd.
  destruct (apply_limiter_returns limiter (ratio_of x0 y0)) as [result Hres].
  rewrite Hres. f_equal.
  destruct (ratio_of_num_den x0 y0 ltac:(lia)) as [Hp Hq].
  assert (Hnum : 0 <= Qnum (ratio_of x0 y0)) by lia.
  destruct (apply_limiter_final _ _ _ Hnum Hres) as (lo & up & Hbr & Hstop).
  destruct Hbr as [[Ha Hb Hc Hd'] Hdet Hlo Hup Hlb Hld]. clear Hnum.
  destruct lo as [a b], up as [c d']. cbn [fst snd] in *.
  destruct Hstop as [m He|m Hg Hl|m Hg Hl]; subst m; unfold mediant_of in *;
    cbn [fst snd] in *; rewrite Hp, Hq in *; clear Hp Hq Hres.
  - assert (Hm : Z.gcd (a + c) (b + d') = 1).
    { apply Z.bezout_1_gcd. exists (- d'), c. lia. }
    destruct (lowest_terms_unique (a + c) (b + d') x0 y0 Hm Hgcd) as [-> ->];
      [lia..|reflexivity].
  - assert (b + d' <= y0); [|lia].
    apply (neighbours_gap a b c d' x0 y0); lia.
  - destruct (Z.eq_dec (a * y0) (x0 * b)) as [E|N].
    + assert (Hm : Z.gcd a b = 1).
      { apply Z.bezout_1_gcd. exists (- d'), c. lia. }
      destruct (lowest_terms_unique a b x0 y0 Hm Hgcd) as [-> ->];
        [lia..|reflexivity].
    + assert (b + d' <= y0); [|lia].
      apply (neighbours_gap a b c d' x0 y0); lia.
Qed.

(** C5, as stated, fails: with the limiter 1 the ratio 3 gives [(3, 1)]. *)
Lemma apply_limiter_one_not_unit :
  ~ (_apply_limiter 1 (ratio_of 3 1) = Some (0, 1) \/
     _apply_limiter 1 (ratio_of 3 1) = Some (1, 1)).
Proof. intros [H|H]; vm_compute in H; discriminate. Qed.

(** C5, amended. With the limiter 1, every ratio of at least 0 that is not
    half an odd integer gives [(n, 1)] for the integer [n] nearest to it. *)
Theorem apply_limiter_one_rounds (ratio_val : Q) :
  (0 <= ratio_val)%Q ->
  (forall k : Z, ~ (ratio_val * 2 == inject_Z (2 * k + 1))%Q) ->
  exists n,
    _apply_limiter 1 ratio_val = Some (n, 1) /\
    (Qabs (ratio_val - inject_Z n) < 1 # 2)%Q.
Proof.
  intros Hr Hhalf.
  destruct (apply_limiter_returns 1 ratio_val) as [result Hres].
  destruct (apply_limiter_final _ _ _ (Qle_0_num _ Hr) Hres) as (lo & up & Hbr & Hstop).
  destruct Hbr as [[Ha Hb Hc Hd'] Hdet Hlo Hup Hlb Hld].
  destruct lo as [a b], up as [c d']. cbn [fst snd] in *.
  assert (Hq : 1 <= QDen ratio_val) by lia.
  assert (b = 1) by lia. subst b.
  assert (Hodd : forall k, Qnum ratio_val * 2 <> (2 * k + 1) * QDen ratio_val).
  { intros k E. apply (Hhalf k). unfold Qeq. cbn. lia. }
  assert (Hnear : forall n,
    (2 * n - 1) * QDen ratio_val < 2 * Qnum ratio_val < (2 * n + 1) * QDen ratio_val ->
    (Qabs (ratio_val - inject_Z n) < 1 # 2)%Q).
  { intros n Hn. apply Qabs_Qlt_condition. unfold Qlt.
    destruct ratio_val as [rn rd]. cbn in *. lia. }
  destruct Hstop as [m He|m Hg Hl|m Hg Hl]; subst m; unfold mediant_of in *;
    cbn [fst snd] in *.
  - assert (d' = 0 \/ d' = 1) as [-> | ->] by lia.
    + exists (a + c). split; [assumption|]. apply Hnear. lia.
    + exfalso. apply (Hodd a). lia.
  - assert (d' = 1) by lia. subst d'.
    exists c. rewrite Hres. split; [reflexivity|]. apply Hnear. lia.
  - assert (d' = 1) by lia. subst d'.
    exists a. rewrite Hres. split; [reflexivity|]. apply Hnear. lia.
Qed.

Lemma apply_limiter_one_rounds_witness :
  exists n,
    _apply_limiter 1 (ratio_of 17 5) = Some (n, 1) /\
    (Qabs (ratio_of 17 5 - inject_Z n) < 1 # 2)%Q.
Proof.
  apply (apply_limiter_one_rounds (ratio_of 17 5)); [discriminate|].
  intros k. unfold Qeq. cbn. lia.
Defined.

(** C6, as stated, fails: with the limiter 0 the ratio 2 gives the sentinel
    [(1, 0)]. *)
Lemma apply_limiter_returns_sentinel :
  (0 <= ratio_of 2 1)%Q /\ _apply_limiter 0 (ratio_of 2 1) = Some (1, 0).
Proof. split; [discriminate|reflexivity]. Qed.

(** C6, amended. For a ratio of at least 0: with a limiter of at least 1
    the denominator returned is at least 1, so never that of the sentinel;
    with a limiter below 1 the search stops at the first mediant 1/1 and
    returns [(0, 1)] for a ratio below 1, [(1, 1)] for the ratio 1 and the
    sentinel [(1, 0)] for a ratio above 1. *)
Theorem apply_limiter_sentinel (limiter : Z) (ratio_val : Q) :
  (0 <= ratio_val)%Q ->
  exists result,
    _apply_limiter limiter ratio_val = Some result /\
    (1 <= limiter -> 1 <= snd result) /\
    (limiter < 1 ->
     result = match (ratio_val ?= 1)%Q with
              | Lt => (0, 1)
              | Eq => (1, 1)
              | Gt => (1, 0)
              end).
Proof.
  intros Hr.
  destruct (apply_limiter_returns limiter ratio_val) as [result Hres].
  exists result. split; [assumption|].
  split.
  - intros Hlim.
    destruct (apply_limiter_final _ _ _ (Qle_0_num _ Hr) Hres) as (lo & up & Hbr & Hstop).
    apply (stop_bounds _ _ _ _ _ Hlim Hbr Hstop).
  - intros Hlim. revert Hres.
    unfold _apply_limiter, turns. cbn [loop]. unfold body, mediant_of.
    rewrite test_cross. cbn [fst snd].
    change (1 + 0) with 1. change (0 + 1) with 1.
    replace (limiter <? 1) with true by (symmetry; apply Z.ltb_lt; lia).
    unfold Qcompare. cbn [Qnum Qden].
    destruct (Qnum ratio_val * 1 ?= 1 * QDen ratio_val); congruence.
Qed.

Lemma apply_limiter_sentinel_witness :
  exists result,
    _apply_limiter 0 (ratio_of 1 2) = Some result /\
    (1 <= 0 -> 1 <= snd result) /\
    (0 < 1 ->
     result = match (ratio_of 1 2 ?= 1)%Q with
              | Lt => (0, 1)
              | Eq => (1, 1)
              | Gt => (1, 0)
              end).
Proof.
  apply (apply_limiter_sentinel 0 (ratio_of 1 2)). discriminate.
Defined.

(* ===================================================================== *)
(** * Facts about binary64 rounding                                       *)
(* ===================================================================== *)

Section Binary64Facts.

Import Binary64.

(** Powers of two. *)
Lemma pow2_pos e : (0 < pow2 e)%Q.
Proof. apply Qpower_0_lt. reflexivity. Qed.

Lemma pow2_add a b : (pow2 (a + b) == pow2 a * pow2 b)%Q.
Proof. apply Qpower_plus. discriminate. Qed.

Lemma pow2_le a b : a <= b -> (pow2 a <= pow2 b)%Q.
Proof. intros H. apply Qpower_le_compat_l; [assumption|discriminate]. Qed.

Lemma pow2_lt a b : a < b -> (pow2 a < pow2 b)%Q.
Proof. intros H. apply Qpower_lt_compat_l; [assumption|reflexivity]. Qed.

Lemma pow2_inject e : 0 <= e -> (pow2 e == inject_Z (2 ^ e))%Q.
Proof. intros H. unfold pow2. rewrite Zpower_Qpower by assumption. reflexivity. Qed.

Lemma pow2_succ e : (pow2 (e + 1) == 2 * pow2 e)%Q.
Proof. rewrite pow2_add. change (pow2 1) with 2%Q. ring. Qed.

(** A rational as the quotient of its numerator by its denominator. *)
Lemma Q_num_den (x : Q) : (x * inject_Z (QDen x) == inject_Z (Qnum x))%Q.
Proof. destruct x as [p q]. unfold Qeq, Qmult, inject_Z. cbn. lia. Qed.

(** [ilog2] is the integer part of the binary logarithm. *)
Lemma ilog2_spec x : (0 < x)%Q -> (pow2 (ilog2 x) <= x /\ x < pow2 (ilog2 x + 1))%Q.
Proof.
  intros Hx.
  assert (Hp : 0 < Qnum x) by (unfold Qlt in Hx; cbn in Hx; lia).
  assert (Hq : 0 < QDen x) by lia.
  pose proof (Z.log2_spec _ Hp) as [Hp1 Hp2].
  pose proof (Z.log2_spec _ Hq) as [Hq1 Hq2].
  pose proof (Z.log2_nonneg (Qnum x)) as Hlp.
  pose proof (Z.log2_nonneg (QDen x)) as Hlq.
  set (lp := Z.log2 (Qnum x)) in *. set (lq := Z.log2 (QDen x)) in *.
  pose proof (Q_num_den x) as E.
  assert (Ip1 : (pow2 lp <= inject_Z (Qnum x))%Q).
  { rewrite pow2_inject by assumption. rewrite <- Zle_Qle. assumption. }
  assert (Ip2 : (inject_Z (Qnum x) < pow2 (lp + 1))%Q).
  { rewrite pow2_inject by lia. rewrite <- Zlt_Qlt. rewrite <- Z.add_1_r in Hp2. assumption. }
  assert (Iq1 : (pow2 lq <= inject_Z (QDen x))%Q).
  { rewrite pow2_inject by assumption. rewrite <- Zle_Qle. assumption. }
  assert (Iq2 : (inject_Z (QDen x) < pow2 (lq + 1))%Q).
  { rewrite pow2_inject by lia. rewrite <- Zlt_Qlt. rewrite <- Z.add_1_r in Hq2. assumption. }
  assert (Dq : (0 < inject_Z (QDen x))%Q) by (rewrite Zlt_Qlt in Hq; exact Hq).
  (* x < pow2 (lp - lq + 1) *)
  assert (U : (x < pow2 (lp - lq + 1))%Q).
  { apply (Qmult_lt_r _ _ (pow2 lq) (pow2_pos lq)).
    rewrite <- pow2_add. replace (lp - lq + 1 + lq) with (lp + 1) by lia.
    apply Qle_lt_trans with (x * inject_Z (QDen x))%Q.
    - apply Qmult_le_l; [assumption|exact Iq1].
    - rewrite E. exact Ip2. }
  assert (L : (pow2 (lp - lq - 1) <= x)%Q).
  { apply (Qmult_le_r _ _ (pow2 (lq + 1)) (pow2_pos _)).
    rewrite <- pow2_add. replace (lp - lq - 1 + (lq + 1)) with lp by lia.
    apply Qle_trans with (x * inject_Z (QDen x))%Q.
    - rewrite E. exact Ip1.
    - apply Qmult_le_l; [assumption|]. apply Qlt_le_weak. exact Iq2. }
  unfold ilog2. fold lp lq.
  destruct (Qle_bool (pow2 (lp - lq)) x) eqn:B.
  - apply Qle_bool_iff in B. split; assumption.
  - split; [exact L|].
    replace (lp - lq - 1 + 1) with (lp - lq) by lia.
    apply Qnot_le_lt. intros C. apply Qle_bool_iff in C. congruence.
Qed.

Lemma ilog2_unique x e : (pow2 e <= x)%Q -> (x < pow2 (e + 1))%Q -> ilog2 x = e.
Proof.
  intros H1 H2.
  assert (Hx : (0 < x)%Q) by (eapply Qlt_le_trans; [apply pow2_pos|exact H1]).
  destruct (ilog2_spec x Hx) as [S1 S2].
  destruct (Z.lt_trichotomy (ilog2 x) e) as [C|[C|C]]; [|assumption|]; exfalso.
  - assert (pow2 (ilog2 x + 1) <= pow2 e)%Q by (apply pow2_le; lia).
    apply (Qlt_irrefl x). eapply Qlt_le_trans; [exact S2|]. eapply Qle_trans; eassumption.
  - assert (pow2 (e + 1) <= pow2 (ilog2 x))%Q by (apply pow2_le; lia).
    apply (Qlt_irrefl x). eapply Qlt_le_trans; [exact H2|]. eapply Qle_trans; eassumption.
Qed.

(** Rounding to an integer moves a number by at most one half, leaves the
    integers alone and does not look at the way a rational is written. *)
Lemma nearest_even_near x : (Qabs (inject_Z (nearest_even x) - x) <= 1 # 2)%Q.
Proof.
  unfold nearest_even.
  pose proof (Qfloor_le x) as H1. pose proof (Qlt_floor x) as H2.
  set (f := Qfloor x) in *.
  rewrite inject_Z_plus in H2. change (inject_Z 1) with 1%Q in H2.
  apply Qabs_Qle_condition.
  destruct (Qcompare_spec (x - inject_Z f) (1 # 2)) as [E|E|E].
  - destruct (Z.even f); [|rewrite inject_Z_plus; change (inject_Z 1) with 1%Q]; lra.
  - lra.
  - rewrite inject_Z_plus; change (inject_Z 1) with 1%Q. lra.
Qed.

Lemma nearest_even_inject k : nearest_even (inject_Z k) = k.
Proof.
  unfold nearest_even. rewrite Qfloor_Z.
  destruct (Qcompare_spec (inject_Z k - inject_Z k) (1 # 2)) as [E|E|E]; try lra.
  reflexivity.
Qed.

Lemma nearest_even_comp x y : (x == y)%Q -> nearest_even x = nearest_even y.
Proof.
  intros E. unfold nearest_even. rewrite (Qfloor_comp _ _ E).
  assert (C : ((x - inject_Z (Qfloor y)) ?= (1#2))%Q = ((y - inject_Z (Qfloor y)) ?= (1#2))%Q).
  { apply Qcompare_comp; [rewrite E|]; reflexivity. }
  rewrite C. reflexivity.
Qed.

Lemma ilog2_comp x y : (0 < x)%Q -> (x == y)%Q -> ilog2 x = ilog2 y.
Proof.
  intros Hx E. symmetry. destruct (ilog2_spec x Hx) as [S1 S2].
  apply ilog2_unique; rewrite <- E; assumption.
Qed.

Lemma round_pos_comp x y : (0 < x)%Q -> (x == y)%Q -> round_pos x = round_pos y.
Proof.
  intros Hx E. unfold round_pos, exponent.
  rewrite (ilog2_comp x y Hx E).
  rewrite (nearest_even_comp (x / pow2 (Z.max (ilog2 y - 52) (-1074)))
                             (y / pow2 (Z.max (ilog2 y - 52) (-1074)))).
  - reflexivity.
  - rewrite E. reflexivity.
Qed.

(** The error of one rounding, in the normal range: at most half a unit in
    the last place, which is at most [2^-53] of the number. *)
Lemma round_pos_error x :
  (pow2 (-1022) <= x)%Q ->
  (Qabs (round_pos x - x) <= x * pow2 (-53))%Q.
Proof.
  intros Hn.
  assert (Hx : (0 < x)%Q) by (eapply Qlt_le_trans; [apply pow2_pos|exact Hn]).
  destruct (ilog2_spec x Hx) as [S1 S2].
  assert (Hl : -1022 <= ilog2 x).
  { destruct (Z_le_gt_dec (-1022) (ilog2 x)) as [|C]; [assumption|exfalso].
    assert (pow2 (ilog2 x + 1) <= pow2 (-1022))%Q by (apply pow2_le; lia).
    apply (Qlt_irrefl x). eapply Qlt_le_trans; [exact S2|]. eapply Qle_trans; eassumption. }
  unfold round_pos, exponent. rewrite Z.max_l by lia.
  set (e := ilog2 x - 52).
  pose proof (pow2_pos e) as Hu.
  pose proof (nearest_even_near (x / pow2 e)) as Hm.
  set (m := inject_Z (nearest_even (x / pow2 e))) in *.
  apply Qabs_Qle_condition in Hm. destruct Hm as [Hm1 Hm2].
  assert (Ex : (x / pow2 e * pow2 e == x)%Q).
  { field. intros C. rewrite C in Hu. apply (Qlt_irrefl 0). exact Hu. }
  assert (Hu2 : (pow2 e == pow2 (ilog2 x) * pow2 (-52))%Q).
  { unfold e. rewrite <- pow2_add. reflexivity. }
  assert (Hu3 : (pow2 e <= x * pow2 (-52))%Q).
  { rewrite Hu2. apply Qmult_le_r; [apply pow2_pos|assumption]. }
  assert (M1 : ((m - x / pow2 e) * pow2 e <= (1#2) * pow2 e)%Q).
  { apply Qmult_le_r; assumption. }
  assert (M2 : (- (1#2) * pow2 e <= (m - x / pow2 e) * pow2 e)%Q).
  { apply Qmult_le_r; assumption. }
  assert (M3 : ((m - x / pow2 e) * pow2 e == m * pow2 e - x)%Q).
  { rewrite <- Ex at 2. ring. }
  rewrite M3 in M1, M2.
  assert (H53 : (x * pow2 (-53) == (1#2) * (x * pow2 (-52)))%Q).
  { change (pow2 (-53)) with (1 # 9007199254740992)%Q.
    change (pow2 (-52)) with (1 # 4503599627370496)%Q. ring. }
  apply Qabs_Qle_condition. rewrite H53. split; lra.
Qed.

(** Numbers with at most 53 significant bits are not changed. *)
Lemma round_pos_dyadic t k :
  1 <= t < 2 ^ 53 -> -1074 <= k ->
  (round_pos (inject_Z t * pow2 k) == inject_Z t * pow2 k)%Q.
Proof.
  intros Ht Hk.
  assert (Ht0 : 0 < t) by lia.
  pose proof (Z.log2_spec _ Ht0) as [L1 L2].
  pose proof (Z.log2_nonneg t) as Hl.
  set (l := Z.log2 t) in *.
  assert (Hl52 : l <= 52).
  { destruct (Z_le_gt_dec l 52) as [|C]; [assumption|exfalso].
    assert (2 ^ 53 <= 2 ^ l) by (apply Z.pow_le_mono_r; lia). lia. }
  assert (I1 : (pow2 l <= inject_Z t)%Q).
  { rewrite pow2_inject by assumption. rewrite <- Zle_Qle. assumption. }
  assert (I2 : (inject_Z t < pow2 (l + 1))%Q).
  { rewrite pow2_inject by lia. rewrite <- Zlt_Qlt. rewrite <- Z.add_1_r in L2. assumption. }
  assert (El : ilog2 (inject_Z t * pow2 k) = l + k).
  { apply ilog2_unique.
    - rewrite pow2_add. apply Qmult_le_r; [apply pow2_pos|assumption].
    - replace (l + k + 1) with (l + 1 + k) by lia. rewrite pow2_add.
      apply Qmult_lt_r; [apply pow2_pos|assumption]. }
  unfold round_pos, exponent. rewrite El.
  destruct (Z.max_spec (l + k - 52) (-1074)) as [[_ ->]|[_ ->]].
  - (* the exponent is -1074 *)
    assert (E : (inject_Z t * pow2 k / pow2 (-1074) == inject_Z (t * 2 ^ (k + 1074)))%Q).
    { rewrite inject_Z_mult, <- pow2_inject by lia.
      rewrite (pow2_add k 1074). change (pow2 1074) with (/ pow2 (-1074))%Q.
      field. intros C. pose proof (pow2_pos (-1074)) as P. rewrite C in P.
      apply (Qlt_irrefl 0). exact P. }
    rewrite (nearest_even_comp _ _ E), nearest_even_inject.
    rewrite inject_Z_mult, <- pow2_inject by lia.
    rewrite <- Qmult_assoc, <- pow2_add.
    replace (k + 1074 + -1074) with k by lia. reflexivity.
  - assert (E : (inject_Z t * pow2 k / pow2 (l + k - 52) == inject_Z (t * 2 ^ (52 - l)))%Q).
    { rewrite inject_Z_mult, <- pow2_inject by lia.
      replace k with ((52 - l) + (l + k - 52)) at 1 by lia.
      rewrite pow2_add.
      field. intros C. pose proof (pow2_pos (l + k - 52)) as P. rewrite C in P.
      apply (Qlt_irrefl 0). exact P. }
    rewrite (nearest_even_comp _ _ E), nearest_even_inject.
    rewrite inject_Z_mult, <- pow2_inject by lia.
    rewrite <- Qmult_assoc, <- pow2_add.
    replace (52 - l + (l + k - 52)) with k by lia. reflexivity.
Qed.

(** A positive number that does not overflow is rounded by [round_pos]. *)
Lemma round64_pos x :
  (0 < x)%Q -> (round_pos x < pow2 1024)%Q -> round64 x = Finite (round_pos x).
Proof.
  intros Hx Hr. unfold round64.
  apply Qgt_alt in Hx. rewrite Hx.
  destruct (Qle_bool (pow2 1024) (round_pos x)) eqn:B; [|reflexivity].
  apply Qle_bool_iff in B. exfalso. apply (Qlt_irrefl (round_pos x)).
  eapply Qlt_le_trans; eassumption.
Qed.

(** One rounding of a number between [2^-1022] and [2^53]. *)
Lemma round64_normal x :
  (pow2 (-1022) <= x)%Q -> (x <= pow2 53)%Q ->
  round64 x = Finite (round_pos x) /\
  (x * (1 - pow2 (-53)) <= round_pos x <= x * (1 + pow2 (-53)))%Q.
Proof.
  intros Hn Hx.
  assert (H0 : (0 < x)%Q) by (eapply Qlt_le_trans; [apply pow2_pos|exact Hn]).
  pose proof (round_pos_error x Hn) as He.
  apply Qabs_Qle_condition in He.
  assert (B : (x * (1 - pow2 (-53)) <= round_pos x <= x * (1 + pow2 (-53)))%Q).
  { split; lra. }
  split; [|exact B].
  apply round64_pos; [assumption|].
  apply Qle_lt_trans with (x * (1 + pow2 (-53)))%Q; [apply B|].
  apply Qle_lt_trans with (pow2 53 * (1 + pow2 (-53)))%Q.
  - apply Qmult_le_r; [|assumption].
    change (pow2 (-53)) with (1 # 9007199254740992)%Q. reflexivity.
  - vm_compute. reflexivity.
Qed.

(** Integers below [2^53] are floats. *)
Lemma of_int_exact d :
  1 <= d < 2 ^ 53 -> exists q, of_int d = inr q /\ (q == inject_Z d)%Q.
Proof.
  intros Hd.
  assert (E : (inject_Z d == inject_Z d * pow2 0)%Q) by (change (pow2 0) with 1%Q; ring).
  assert (H0 : (0 < inject_Z d)%Q) by (change 0%Q with (inject_Z 0); rewrite <- Zlt_Qlt; lia).
  assert (R : (round_pos (inject_Z d) == inject_Z d)%Q).
  { rewrite (round_pos_comp _ _ H0 E). rewrite round_pos_dyadic by lia.
    symmetry. exact E. }
  exists (round_pos (inject_Z d)). split; [|exact R].
  unfold of_int. rewrite round64_pos; [reflexivity|assumption|].
  rewrite R. apply Qlt_le_trans with (inject_Z (2 ^ 53)).
  - rewrite <- Zlt_Qlt. lia.
  - vm_compute. discriminate.
Qed.

Lemma inject_Z_pos z : 0 < z -> (0 < inject_Z z)%Q.
Proof. intros H. change 0%Q with (inject_Z 0). rewrite <- Zlt_Qlt. exact H. Qed.

Lemma inject_Z_ge1 z : 1 <= z -> (1 <= inject_Z z)%Q.
Proof. intros H. change 1%Q with (inject_Z 1). rewrite <- Zle_Qle. exact H. Qed.

Section Rounding.

Variables w h : Z.
Hypothesis Hw : 1 <= w <= 2 ^ 50.
Hypothesis Hh : 1 <= h <= 2 ^ 1000.

Local Abbreviation x := (inject_Z w / inject_Z h)%Q.
Local Abbreviation eps := (1 # 9007199254740992)%Q.

(** The exact quotient [x = w / h] and its size. *)
Lemma ratio_times_height : (x * inject_Z h == inject_Z w)%Q.
Proof.
  field. intros C. pose proof (inject_Z_pos h ltac:(lia)) as P.
  rewrite C in P. apply (Qlt_irrefl 0). exact P.
Qed.

Lemma ratio_range : (pow2 (-1000) <= x /\ x <= inject_Z (2 ^ 50))%Q.
Proof.
  pose proof (inject_Z_pos h ltac:(lia)) as P.
  pose proof ratio_times_height as E.
  split.
  - apply (Qmult_le_r _ _ (inject_Z h) P). rewrite E.
    apply Qle_trans with 1%Q; [|apply inject_Z_ge1; lia].
    apply Qle_trans with (pow2 (-1000) * inject_Z (2 ^ 1000))%Q.
    + apply Qmult_le_l; [apply pow2_pos|]. rewrite <- Zle_Qle. lia.
    + rewrite <- pow2_inject by lia. rewrite <- pow2_add. discriminate.
  - apply (Qmult_le_r _ _ (inject_Z h) P). rewrite E.
    apply Qle_trans with (inject_Z (2 ^ 50) * 1)%Q.
    + rewrite Qmult_1_r. rewrite <- Zle_Qle. lia.
    + apply Qmult_le_l; [reflexivity|]. apply inject_Z_ge1. lia.
Qed.

(** The quotient of line 101 is within [2^-53] of the exact one. *)
Lemma truediv_near :
  exists r, truediv w h = inr r /\ (x * (1 - eps) <= r <= x * (1 + eps))%Q.
Proof.
  destruct ratio_range as [R1 R2].
  destruct (round64_normal x) as [E B].
  - eapply Qle_trans; [|exact R1]. apply pow2_le. lia.
  - eapply Qle_trans; [exact R2|]. vm_compute. discriminate.
  - exists (round_pos x). split; [|exact B].
    unfold truediv. destruct (Z.eqb_spec h 0); [lia|]. rewrite E. reflexivity.
Qed.

(** The test of the loop on a rounded ratio: whatever it finds is right,
    except that at an exact tie [w * d = n * h] it may find anything. *)
Lemma test_sound r n d :
  (x * (1 - eps) <= r <= x * (1 + eps))%Q ->
  1 <= d < 2 ^ 53 -> w * d <= 2 ^ 51 ->
  exists c, Binary64.test r (n, d) = inr c /\
    match c with
    | Gt => n * h <= w * d
    | Eq => w * d = n * h
    | Lt => w * d <= n * h
    end.
Proof.
  intros [R1 R2] Hd Hwd.
  destruct (of_int_exact d Hd) as (q & Eq_ & Hq).
  destruct ratio_range as [X1 X2].
  pose proof ratio_times_height as EH.
  pose proof (inject_Z_pos h ltac:(lia)) as PH.
  pose proof (inject_Z_ge1 h ltac:(lia)) as PH1.
  pose proof (inject_Z_ge1 d ltac:(lia)) as PD1.
  assert (X0 : (0 < x)%Q) by (eapply Qlt_le_trans; [apply pow2_pos|exact X1]).
  revert R1 R2 X1 X2 EH X0. generalize (inject_Z w / inject_Z h)%Q. intros X R1 R2 X1 X2 EH X0.
  set (P := inject_Z (w * d)).
  assert (EP : (X * inject_Z d * inject_Z h == P)%Q).
  { unfold P. rewrite inject_Z_mult, <- EH. ring. }
  assert (HP : (1 <= P <= inject_Z (2 ^ 51))%Q).
  { unfold P. split; [apply inject_Z_ge1; nia|rewrite <- Zle_Qle; assumption]. }
  (* the product before rounding *)
  set (y := (r * q)%Q).
  assert (Ey : (y == r * inject_Z d)%Q) by (unfold y; rewrite Hq; reflexivity).
  assert (A1 : (y * inject_Z h <= (1 + eps) * P)%Q).
  { rewrite Ey, <- EP.
    setoid_replace ((1 + eps) * (X * inject_Z d * inject_Z h))%Q
      with (X * (1 + eps) * (inject_Z d * inject_Z h))%Q using relation Qeq by ring.
    rewrite <- Qmult_assoc. apply Qmult_le_r; [|assumption].
    apply Qlt_le_trans with (1 * 1)%Q; [reflexivity|].
    apply Qmult_le_compat_nonneg; split; try assumption; discriminate. }
  assert (A2 : ((1 - eps) * P <= y * inject_Z h)%Q).
  { rewrite Ey, <- EP.
    setoid_replace ((1 - eps) * (X * inject_Z d * inject_Z h))%Q
      with (X * (1 - eps) * (inject_Z d * inject_Z h))%Q using relation Qeq by ring.
    rewrite <- (Qmult_assoc r). apply Qmult_le_r; [|assumption].
    apply Qlt_le_trans with (1 * 1)%Q; [reflexivity|].
    apply Qmult_le_compat_nonneg; split; try assumption; discriminate. }
  (* its size *)
  assert (Y1 : (pow2 (-1022) <= y)%Q).
  { apply Qle_trans with (X * (1 - eps))%Q.
    - apply Qle_trans with (pow2 (-1000) * (1 - eps))%Q; [vm_compute; discriminate|].
      apply Qmult_le_r; [reflexivity|assumption].
    - apply Qle_trans with (r * 1)%Q; [rewrite Qmult_1_r; assumption|].
      rewrite Ey. apply Qmult_le_l; [|assumption].
      eapply Qlt_le_trans; [|exact R1].
      apply Qmult_lt_0_compat; [assumption|reflexivity]. }
  assert (Y2 : (y <= pow2 53)%Q).
  { apply Qle_trans with (y * inject_Z h)%Q.
    - rewrite <- (Qmult_1_r y) at 1. apply Qmult_le_l; [|assumption].
      eapply Qlt_le_trans; [apply pow2_pos|exact Y1].
    - eapply Qle_trans; [exact A1|].
      apply Qle_trans with ((1 + eps) * inject_Z (2 ^ 51))%Q.
      + apply Qmult_le_l; [reflexivity|apply HP].
      + vm_compute. discriminate. }
  destruct (round64_normal y Y1 Y2) as [Et [T1 T2]].
  change (pow2 (-53)) with eps in T1, T2.
  set (t := round_pos y) in *.
  assert (B1 : (t * inject_Z h <= (1 + eps) * (y * inject_Z h))%Q).
  { setoid_replace ((1 + eps) * (y * inject_Z h))%Q
      with (y * (1 + eps) * inject_Z h)%Q using relation Qeq by ring.
    apply Qmult_le_r; assumption. }
  assert (B2 : ((1 - eps) * (y * inject_Z h) <= t * inject_Z h)%Q).
  { setoid_replace ((1 - eps) * (y * inject_Z h))%Q
      with (y * (1 - eps) * inject_Z h)%Q using relation Qeq by ring.
    apply Qmult_le_r; assumption. }
  set (YH := (y * inject_Z h)%Q) in *. set (TH := (t * inject_Z h)%Q) in *.
  set (NH := inject_Z (n * h)).
  assert (EN : (inject_Z n * inject_Z h == NH)%Q) by (unfold NH; rewrite inject_Z_mult; reflexivity).
  destruct HP as [HP1 HP2]. change (inject_Z (2 ^ 51)) with (2251799813685248 # 1)%Q in HP2.
  exists (Qcompare t (inject_Z n)). split.
  { unfold Binary64.test. cbn [fst snd]. rewrite Eq_. fold y. rewrite Et. reflexivity. }
  destruct (Qcompare_spec t (inject_Z n)) as [C|C|C].
  - (* equal *)
    assert (CH : (TH == NH)%Q) by (unfold TH; rewrite C; exact EN).
    destruct (Z.lt_trichotomy (w * d) (n * h)) as [L|[E|G]]; [exfalso|exact E|exfalso].
    + assert (P + 1 <= NH)%Q.
      { unfold P, NH. rewrite <- (inject_Z_plus _ 1), <- Zle_Qle. lia. }
      lra.
    + assert (NH + 1 <= P)%Q.
      { unfold P, NH. rewrite <- (inject_Z_plus _ 1), <- Zle_Qle. lia. }
      lra.
  - (* the product is smaller *)
    assert (CH : (TH < NH)%Q).
    { unfold TH. rewrite <- EN. apply Qmult_lt_r; assumption. }
    destruct (Z_le_gt_dec (w * d) (n * h)) as [|G]; [assumption|exfalso].
    assert (NH + 1 <= P)%Q.
    { unfold P, NH. rewrite <- (inject_Z_plus _ 1), <- Zle_Qle. lia. }
    lra.
  - assert (CH : (NH < TH)%Q).
    { unfold TH. rewrite <- EN. apply Qmult_lt_r; assumption. }
    destruct (Z_le_gt_dec (n * h) (w * d)) as [|G]; [assumption|exfalso].
    assert (P + 1 <= NH)%Q.
    { unfold P, NH. rewrite <- (inject_Z_plus _ 1), <- Zle_Qle. lia. }
    lra.
Qed.

End Rounding.

(** The quotient of 0 is 0. *)
Lemma truediv_zero h : h <> 0 -> truediv 0 h = inr 0%Q.
Proof.
  intros Hh. unfold truediv. destruct (Z.eqb_spec h 0); [contradiction|].
  unfold round64.
  assert (E : (inject_Z 0 / inject_Z h == 0)%Q).
  { unfold Qdiv. change (inject_Z 0) with 0%Q. ring. }
  apply Qeq_alt in E. rewrite E. reflexivity.
Qed.

(** Below [2^53] bytes the quotient by [2^20] is exact. *)
Lemma truediv_mib (total : Z) :
  0 <= total < 2 ^ 53 ->
  exists size_mb,
    truediv total (1024 * 1024) = inr size_mb /\
    (size_mb == inject_Z total / inject_Z (1024 * 1024))%Q.
Proof.
  intros Ht. destruct (Z.eq_dec total 0) as [->|N0].
  - exists 0%Q. split; [apply truediv_zero; discriminate|reflexivity].
  - set (x := (inject_Z total / inject_Z (1024 * 1024))%Q).
    assert (E : (x == inject_Z total * pow2 (-20))%Q) by reflexivity.
    assert (H0 : (0 < x)%Q).
    { rewrite E. apply Qmult_lt_0_compat; [apply inject_Z_pos; lia|apply pow2_pos]. }
    assert (R : (round_pos x == x)%Q).
    { rewrite (round_pos_comp _ _ H0 E), round_pos_dyadic by lia. symmetry. exact E. }
    exists (round_pos x). split; [|exact R].
    unfold truediv. change (1024 * 1024 =? 0) with false. cbn iota. fold x.
    rewrite round64_pos; [reflexivity|assumption|].
    rewrite R, E. apply Qle_lt_trans with (inject_Z total * 1)%Q.
    + apply Qmult_le_l; [apply inject_Z_pos; lia|discriminate].
    + rewrite Qmult_1_r. apply Qlt_le_trans with (inject_Z (2 ^ 53)).
      * rewrite <- Zlt_Qlt. lia.
      * vm_compute. discriminate.
Qed.

(** More turns than needed change nothing. *)
Lemma loop64_more limiter ratio_val fuel : forall lower upper result (extra : nat),
  Binary64.loop limiter ratio_val fuel lower upper = Some result ->
  Binary64.loop limiter ratio_val (fuel + extra) lower upper = Some result.
Proof.
  induction fuel as [|fuel IH]; intros lower upper result extra; [discriminate|].
  cbn [Binary64.loop Nat.add].
  destruct (Binary64.body limiter ratio_val lower upper); [trivial|apply IH|trivial].
Qed.

Section SearchFacts.

Variables limiter width height : Z.
Variable ratio_val : Q.
Hypothesis Hwidth : 0 <= width.
Hypothesis Hheight : 1 <= height <= 2 ^ 1000.
Hypothesis Hlimiter : 1 <= limiter <= 2 ^ 50.
Hypothesis Hsize : width * limiter <= 2 ^ 50.
Hypothesis Hratio : truediv width height = inr ratio_val.

Local Abbreviation body := (Binary64.body limiter ratio_val).
Local Abbreviation loop := (Binary64.loop limiter ratio_val).
Local Abbreviation between := (Binary64.between limiter width height).
Local Abbreviation stop := (Binary64.stop limiter width height).
Local Abbreviation slack := (Binary64.slack limiter width height).

Lemma width_small : width <= 2 ^ 50.
Proof. nia. Qed.

(** What the test of the loop finds at a mediant within twice the limiter. *)
Lemma test_mediant n d :
  1 <= d <= 2 * limiter ->
  exists c, Binary64.test ratio_val (n, d) = inr c /\
    match c with
    | Gt => n * height <= width * d
    | Eq => width * d = n * height
    | Lt => width * d <= n * height
    end.
Proof.
  intros Hd. pose proof width_small as Hw.
  assert (Hd53 : 1 <= d < 2 ^ 53) by lia.
  destruct (Z.eq_dec width 0) as [E0|N0].
  - subst width. rewrite truediv_zero in Hratio by lia.
    injection Hratio as <-.
    destruct (of_int_exact d Hd53) as (q & Eq_ & Hq).
    exists (Qcompare 0 (inject_Z n)). split.
    + unfold Binary64.test. cbn [fst snd]. rewrite Eq_.
      unfold round64.
      assert (E : (0 * q == 0)%Q) by ring.
      apply Qeq_alt in E. rewrite E. reflexivity.
    + destruct (Qcompare_spec 0 (inject_Z n)) as [C|C|C].
      * change 0%Q with (inject_Z 0) in C. rewrite inject_Z_injective in C.
        rewrite <- C. reflexivity.
      * change 0%Q with (inject_Z 0) in C. rewrite <- Zlt_Qlt in C.
        rewrite Z.mul_0_l. apply Z.mul_nonneg_nonneg; lia.
      * change 0%Q with (inject_Z 0) in C. rewrite <- Zlt_Qlt in C.
        rewrite Z.mul_0_l. apply Z.mul_nonpos_nonneg; lia.
  - assert (Hw1 : 1 <= width <= 2 ^ 50) by lia.
    destruct (truediv_near width height Hw1 Hheight) as (r & Er & Hr).
    rewrite Hratio in Er. injection Er as <-.
    apply (test_sound width height Hw1 Hheight ratio_val n d Hr Hd53).
    assert (width * d <= width * (2 * limiter)) by (apply Z.mul_le_mono_nonneg_l; lia).
    change (2 ^ 51) with (2 * 2 ^ 50). lia.
Qed.

(** One turn of the loop on enclosing bounds: it returns in one of the
    three ways of [stop], or goes on with enclosing bounds and less slack;
    it does not raise. *)
Lemma body64_cases lower upper :
  between lower upper ->
  (exists result, body lower upper = Binary64.Return result /\ stop lower upper result) \/
  (exists lower' upper',
     body lower upper = Binary64.Again lower' upper' /\
     between lower' upper' /\ (slack lower' upper' < slack lower upper)%nat).
Proof.
  destruct lower as [a b], upper as [c d].
  intros [[Ha Hb Hc Hd] Hdet Hlo Hup Hlb Hld]. cbn [fst snd] in *.
  destruct (test_mediant (a + c) (b + d) ltac:(lia)) as (t & Et & Ht).
  unfold Binary64.body, Approximator.mediant_of. cbn [fst snd]. rewrite Et.
  destruct t.
  - left. eexists. split; [reflexivity|].
    apply (Binary64.stop_tie limiter width height (a, b) (c, d)). exact Ht.
  - destruct (Z.ltb_spec limiter (b + d)) as [Hover|Hin].
    + left. eexists. split; [reflexivity|].
      apply (Binary64.stop_below limiter width height (a, b) (c, d)); assumption.
    + right. eexists _, _. split; [reflexivity|]. split.
      * split; [split|..]; cbn [fst snd]; lia.
      * unfold Binary64.slack. cbn [fst snd].
        destruct (Z.eqb_spec (b + d) 0); [lia|].
        destruct (d =? 0); lia.
  - destruct (Z.ltb_spec limiter (b + d)) as [Hover|Hin].
    + left. eexists. split; [reflexivity|].
      apply (Binary64.stop_above limiter width height (a, b) (c, d)); assumption.
    + right. eexists _, _. split; [reflexivity|]. split.
      * split; [split|..]; cbn [fst snd]; lia.
      * unfold Binary64.slack. cbn [fst snd].
        destruct (Z.eqb_spec d 0) as [->|Hd0]; [|lia].
        rewrite !Z.add_0_r, Z.mul_0_r, Z.sub_0_r in *.
        assert (b = 1 /\ c = 1) as [-> ->] by nia.
        assert (a + 1 <= width / height); [|lia].
        apply Z.div_le_lower_bound; lia.
Qed.

(** Enough turns make the loop return, and it returns from a pair of bounds
    that encloses the quotient. *)
Lemma loop64_final fuel : forall lower upper,
  between lower upper ->
  (slack lower upper < fuel)%nat ->
  exists result lo up,
    loop fuel lower upper = Some (inr result) /\ between lo up /\ stop lo up result.
Proof.
  induction fuel as [|fuel IH]; intros lower upper Hbt Hlt; [lia|].
  cbn [Binary64.loop].
  destruct (body64_cases lower upper Hbt)
    as [(result & -> & Hstop)|(lower' & upper' & -> & Hbt' & Hdec)].
  - exists result, lower, upper. auto.
  - apply IH; [assumption|lia].
Qed.

Lemma between_init : between (0, 1) (1, 0).
Proof. split; [split|..]; cbn [fst snd]; lia. Qed.

(** The quotient of the integers is at most one turn ahead of the floor of
    the rounded quotient. *)
Lemma floor_ratio : width / height <= Qfloor ratio_val + 1.
Proof.
  destruct (Z.eq_dec width 0) as [E0|N0].
  - revert Hratio. rewrite E0, truediv_zero by lia. intros [= <-].
    rewrite Z.div_0_l by lia. change (Qfloor 0) with 0. lia.
  - assert (Hw1 : 1 <= width <= 2 ^ 50) by (pose proof width_small; lia).
    destruct (truediv_near width height Hw1 Hheight) as (r & Er & Hr1 & Hr2).
    rewrite Hratio in Er. injection Er as <-.
    destruct (ratio_range width height Hw1 Hheight) as [X1 X2].
    pose proof (ratio_times_height width height Hheight) as EH.
    pose proof (inject_Z_pos height ltac:(lia)) as PH.
    revert Hr1 Hr2 X1 X2 EH. generalize (inject_Z width / inject_Z height)%Q.
    intros X Hr1 Hr2 X1 X2 EH.
    set (k := width / height).
    assert (Hk : (inject_Z k <= X)%Q).
    { apply (Qmult_le_r _ _ (inject_Z height) PH). rewrite EH.
      rewrite <- inject_Z_mult, <- Zle_Qle. unfold k.
      rewrite Z.mul_comm. apply Z.mul_div_le. lia. }
    pose proof (Qlt_floor ratio_val) as Hf.
    destruct (Z_le_gt_dec k (Qfloor ratio_val + 1)) as [|C]; [assumption|exfalso].
    assert (Hc : (inject_Z (Qfloor ratio_val + 1) + 1 <= inject_Z k)%Q).
    { rewrite <- (inject_Z_plus _ 1), <- Zle_Qle. lia. }
    change (inject_Z (2 ^ 50)) with (1125899906842624 # 1)%Q in X2.
    lra.
Qed.

(** The search on a rounded quotient returns, and what it returns comes
    from two neighbours that enclose the exact quotient. *)
Lemma apply_limiter64_final :
  exists result lo up,
    Binary64._apply_limiter limiter ratio_val = Some (inr result) /\
    between lo up /\ stop lo up result.
Proof.
  apply loop64_final; [apply between_init|].
  unfold Binary64.slack, Binary64.turns. cbn [fst snd].
  pose proof floor_ratio.
  assert (0 <= width / height) by (apply Z.div_pos; lia).
  change (0 =? 0) with true. cbn iota. lia.
Qed.

End SearchFacts.

(** The call [_apply_limiter(width / height)] within the range in which the
    rounded tests are right away from ties. *)
Lemma approximate_final (limiter width height : Z) :
  0 <= width -> 1 <= height <= 2 ^ 1000 ->
  1 <= limiter <= 2 ^ 50 -> width * limiter <= 2 ^ 50 ->
  exists result lo up,
    Binary64.approximate limiter width height = Some (inr result) /\
    Binary64.between limiter width height lo up /\
    Binary64.stop limiter width height lo up result.
Proof.
  intros Hw Hh Hl Hs.
  assert (Hr : exists r, truediv width height = inr r).
  { destruct (Z.eq_dec width 0) as [->|N0].
    - exists 0%Q. apply truediv_zero. lia.
    - destruct (truediv_near width height) as (r & Er & _); [nia|assumption|eauto]. }
  destruct Hr as [r Hr]. unfold Binary64.approximate. rewrite Hr.
  apply (apply_limiter64_final limiter width height r); assumption.
Qed.

End Binary64Facts.

(** ** The claims about the search on a rounded quotient *)

(** What Python returns on the inputs used above and on three others: the
    rounded product [fl(1500/1100) * 11] is below 15 and [fl(1/49) * 49] is
    below 1, so that these exact matches are missed. *)
Example approximate_1920_1080 : Binary64.approximate 10 1920 1080 = Some (inr (16, 9)).
Proof. vm_compute. reflexivity. Qed.

Example approximate_exact_match_exceeds_limiter :
  Binary64.approximate 1 1 2 = Some (inr (1, 2)) /\
  Binary64.approximate 5 1920 1080 = Some (inr (16, 9)).
Proof. split; vm_compute; reflexivity. Qed.

Example approximate_1500_1100 : Binary64.approximate 10 1500 1100 = Some (inr (4, 3)).
Proof. vm_compute. reflexivity. Qed.

Example approximate_1_49 : Binary64.approximate 48 1 49 = Some (inr (0, 1)).
Proof. vm_compute. reflexivity. Qed.

(** [round64] gives what the primitive floats give: on all quotients
    [a / b] and products [(a / b) * d] with [a <= 48], [b <= 24] and
    [d <= 12], and on the quotients and products met above. *)
Example round64_agrees_with_primitive_floats :
  forallb (fun a => forallb (fun b =>
     Kernel64.same_quotient a b
     && forallb (fun d => Kernel64.same_product a b d) (seqZ 1 12))
     (seqZ 1 24)) (seqZ 1 48) = true /\
  Kernel64.same_quotient 1920 1080 = true /\
  Kernel64.same_product 1920 1080 9 = true /\
  Kernel64.same_product 1500 1100 11 = true /\
  Kernel64.same_product 1 49 49 = true /\
  Kernel64.same_quotient 267914296 165580141 = true /\
  Kernel64.same_product 267914296 165580141 102334155 = true /\
  Kernel64.same_quotient (2 ^ 53 - 1) 1048576 = true.
Proof. vm_compute. repeat split. Qed.

(** C2, as stated, fails: for 5/16 and the limiter 2 the search returns
    0/1, at distance 5/16, while 1/2 is at distance 3/16. *)
Lemma apply_limiter_not_closest :
  exists result,
    Binary64.approximate 2 5 16 = Some (inr result) /\
    ~ closest 2 (ratio_of 5 16) result.
Proof.
  exists (0, 1). split; [vm_compute; reflexivity|].
  intros H. specialize (H 1 2 ltac:(lia)). revert H.
  vm_compute. intros H. apply H. reflexivity.
Qed.

(** C2, amended. For a width of at least 0, a height of at least 1 and a
    limiter of at least 1, of sizes at which binary64 decides every test
    that is not a tie ([limiter <= 2^50], [width * limiter <= 2^50],
    [height <= 2^1000]), the call [_apply_limiter(width / height)] returns
    [(x, y)] with [x >= 0] and [1 <= y <= 2 * limiter], where [y] exceeds the
    limiter only if [x/y] is the quotient itself. [x/y] is the nearest
    fraction on its own side of the quotient: no fraction with a denominator
    between 1 and the limiter lies between the two (the quotient included,
    [x/y] excluded). Which one it is: there are neighbours
    [a/b <= width/height <= c/d] with [b*c - a*d = 1] and [b, d <= limiter]
    ([c/d] may be the sentinel [1/0]) such that the result is their mediant,
    and then the mediant is the quotient; or it is [c/d], and then
    [b + d > limiter] and the quotient is not below the mediant; or it is
    [a/b], and then [b + d > limiter] and the quotient is not above the
    mediant. The closer of [a/b] and [c/d] is not preferred. *)
Theorem apply_limiter_nearest_on_its_side (limiter width height : Z) :
  0 <= width -> 1 <= height <= 2 ^ 1000 ->
  1 <= limiter <= 2 ^ 50 -> width * limiter <= 2 ^ 50 ->
  exists result,
    Binary64.approximate limiter width height = Some (inr result) /\
    0 <= fst result /\ 1 <= snd result <= 2 * limiter /\
    (limiter < snd result -> (value result == ratio_of width height)%Q) /\
    (forall n d, 1 <= d <= limiter ->
       ~ (value result < value (n, d) /\ value (n, d) <= ratio_of width height)%Q /\
       ~ (ratio_of width height <= value (n, d) /\ value (n, d) < value result)%Q) /\
    exists a b c d,
      b * c - a * d = 1 /\ 0 <= a /\ 1 <= b <= limiter /\ 1 <= c /\ 0 <= d <= limiter /\
      a * height <= width * b /\ width * d <= c * height /\
      (result = (a + c, b + d) /\ width * (b + d) = (a + c) * height \/
       result = (c, d) /\ limiter < b + d /\ (a + c) * height <= width * (b + d) \/
       result = (a, b) /\ limiter < b + d /\ width * (b + d) <= (a + c) * height).
Proof.
  intros Hw Hh Hl Hs.
  destruct (approximate_final limiter width height Hw Hh Hl Hs)
    as (result & lo & up & Hres & Hbt & Hstop).
  exists result. split; [exact Hres|].
  destruct Hbt as [[Ha Hb Hc Hd'] Hdet Hlo Hup Hlb Hld].
  destruct lo as [a b], up as [c d']. cbn [fst snd] in *.
  destruct (ratio_of_num_den width height ltac:(lia)) as [Hp Hq].
  assert (V : forall f g : fraction, 1 <= snd f -> 1 <= snd g ->
            ((value f < value g)%Q <-> fst f * snd g < fst g * snd f) /\
            ((value f == value g)%Q <-> fst f * snd g = fst g * snd f)).
  { intros [f1 f2] [g1 g2] Hf Hg. cbn [fst snd] in *. cross. split; reflexivity. }
  assert (R : forall f : fraction, 1 <= snd f ->
            ((value f <= ratio_of width height)%Q <-> fst f * height <= width * snd f) /\
            ((ratio_of width height <= value f)%Q <-> width * snd f <= fst f * height) /\
            ((value f == ratio_of width height)%Q <-> fst f * height = width * snd f)).
  { intros [f1 f2] Hf. cbn [fst snd] in *.
    unfold Qle, Qeq, value. cbn [Qnum Qden fst snd]. rewrite Hp, Hq, Z2Pos.id by lia.
    repeat split; lia. }
  assert (Hcases :
      result = (a + c, b + d') /\ width * (b + d') = (a + c) * height \/
      result = (c, d') /\ limiter < b + d' /\ (a + c) * height <= width * (b + d') \/
      result = (a, b) /\ limiter < b + d' /\ width * (b + d') <= (a + c) * height).
  { destruct Hstop as [m He|m Hg Hover|m Hg Hover]; subst m;
      unfold mediant_of in *; cbn [fst snd] in *; auto. }
  assert (Hy : 0 <= fst result /\ 1 <= snd result <= 2 * limiter).
  { destruct Hcases as [[-> _]|[[-> [? _]]|[-> _]]]; cbn [fst snd]; lia. }
  destruct Hy as [Hx Hy].
  split; [exact Hx|]. split; [exact Hy|].
  split; [|split].
  - intros Hover. apply (R result); [lia|].
    destruct Hcases as [[-> E]|[[-> [? _]]|[-> _]]]; cbn [fst snd] in *; lia.
  - intros n d Hd.
    destruct (V result (n, d) ltac:(lia) ltac:(cbn; lia)) as [V1 _].
    destruct (V (n, d) result ltac:(cbn; lia) ltac:(lia)) as [V2 _].
    destruct (R (n, d) ltac:(cbn; lia)) as (R1 & R2 & _).
    rewrite V1, V2, R1, R2. clear V V1 V2 R R1 R2. cbn [fst snd].
    assert (Hh1 : 1 <= height) by lia.
    clear Hh Hl Hs Hp Hq Hres Hstop.
    assert (Hmid : a * (b + d') < (a + c) * b) by lia.
    destruct Hcases as [[-> E]|[[-> [Hover Hg]]|[-> [Hover Hg]]]]; cbn [fst snd];
      (split; intros [H1 H2]).
    + pose proof (cross_lt_le _ _ _ _ _ _ H1 H2). lia.
    + pose proof (cross_le_lt _ _ _ _ _ _ H1 H2). lia.
    + pose proof (cross_lt_le _ _ _ _ _ _ H1 H2). lia.
    + assert (b + d' <= d); [|lia].
      apply (neighbours_gap a b c d' n d); try lia.
      pose proof (cross_lt_le _ _ _ _ _ _ Hmid Hg ltac:(lia) ltac:(lia) ltac:(lia)) as K.
      apply (cross_lt_le _ _ _ _ _ _ K H1); lia.
    + assert (b + d' <= d); [|lia].
      apply (neighbours_gap a b c d' n d); try lia.
      destruct (Z.eq_dec d' 0) as [->|Hd0]; [lia|].
      assert (Hup' : (a + c) * d' < c * (b + d')) by lia.
      pose proof (cross_le_lt _ _ _ _ _ _ Hg Hup' ltac:(lia) ltac:(lia) ltac:(lia)) as K.
      apply (cross_le_lt _ _ _ _ _ _ H2 K); lia.
    + pose proof (cross_le_lt _ _ _ _ _ _ H1 H2). lia.
  - exists a, b, c, d'. repeat split; try lia. exact Hcases.
Qed.


Lemma apply_limiter_nearest_on_its_side_witness :
  exists result,
    Binary64.approximate 10 2560 1080 = Some (inr result) /\
    0 <= fst result /\ 1 <= snd result <= 2 * 10 /\
    (10 < snd result -> (value result == ratio_of 2560 1080)%Q) /\
    (forall n d, 1 <= d <= 10 ->
       ~ (value result < value (n, d) /\ value (n, d) <= ratio_of 2560 1080)%Q /\
       ~ (ratio_of 2560 1080 <= value (n, d) /\ value (n, d) < value result)%Q) /\
    exists a b c d,
      b * c - a * d = 1 /\ 0 <= a /\ 1 <= b <= 10 /\ 1 <= c /\ 0 <= d <= 10 /\
      a * 1080 <= 2560 * b /\ 2560 * d <= c * 1080 /\
      (result = (a + c, b + d) /\ 2560 * (b + d) = (a + c) * 1080 \/
       result = (c, d) /\ 10 < b + d /\ (a + c) * 1080 <= 2560 * (b + d) \/
       result = (a, b) /\ 10 < b + d /\ 2560 * (b + d) <= (a + c) * 1080).
Proof.
  apply (apply_limiter_nearest_on_its_side 10 2560 1080); lia.
Defined.

(** C4, as stated, fails: 267914296 and 165580141 are coprime and the
    denominator is not over the limiter 165580141, but the rounded product
    at the earlier mediant 165580141/102334155 is exactly 165580141, and
    this mediant is returned as an exact match. *)
Lemma apply_limiter_false_exact_match :
  0 <= 267914296 /\ 1 <= 165580141 <= 165580141 /\
  Z.gcd 267914296 165580141 = 1 /\
  Binary64.approximate 165580141 267914296 165580141
    = Some (inr (165580141, 102334155)).
Proof.
  split; [lia|]. split; [lia|]. split; [vm_compute; reflexivity|].
  unfold Binary64.approximate.
  destruct (Binary64.truediv 267914296 165580141) as [e|r] eqn:E; [vm_compute in E; discriminate|].
  assert (Hr : r = (7286977268806824 # 4503599627370496)%Q).
  { vm_compute in E. congruence. }
  unfold Binary64._apply_limiter.
  replace (Binary64.turns 165580141 r)
    with (100 + (Binary64.turns 165580141 r - 100))%nat.
  - apply loop64_more. rewrite Hr. vm_compute. reflexivity.
  - assert (100 <= Binary64.turns 165580141 r)%nat; [|lia].
    unfold Binary64.turns. lia.
Qed.


(** C4, amended. For coprime [x0 >= 0] and [y0] with [1 <= y0 <= limiter],
    if [limiter <= 2^50] and [x0 * limiter <= 2^50], the call
    [_apply_limiter(x0 / y0)] returns [(x0, y0)]. *)
Theorem apply_limiter_idempotent_in_range (limiter x0 y0 : Z) :
  0 <= x0 -> 1 <= y0 <= limiter -> Z.gcd x0 y0 = 1 ->
  limiter <= 2 ^ 50 -> x0 * limiter <= 2 ^ 50 ->
  Binary64.approximate limiter x0 y0 = Some (inr (x0, y0)).
Proof.
  intros Hx0 Hy0 Hgcd Hl Hs.
  destruct (approximate_final limiter x0 y0 Hx0 ltac:(lia) ltac:(lia) Hs)
    as (result & lo & up & Hres & Hbt & Hstop).
  rewrite Hres. do 2 f_equal. clear Hres Hs Hl.
  destruct Hbt as [[Ha Hb Hc Hd'] Hdet Hlo Hup Hlb Hld].
  destruct lo as [a b], up as [c d']. cbn [fst snd] in *.
  destruct Hstop as [m He|m Hg Hover|m Hg Hover]; subst m; unfold mediant_of in *;
    cbn [fst snd] in *.
  - assert (Hm : Z.gcd (a + c) (b + d') = 1).
    { apply Z.bezout_1_gcd. exists (- d'), c. lia. }
    destruct (lowest_terms_unique (a + c) (b + d') x0 y0 Hm Hgcd) as [-> ->];
      [lia..|reflexivity].
  - destruct (Z.eq_dec (x0 * d') (c * y0)) as [E|N].
    + assert (Hd1 : 1 <= d') by nia.
      assert (Hm : Z.gcd c d' = 1).
      { apply Z.bezout_1_gcd. exists b, (- a). lia. }
      destruct (lowest_terms_unique c d' x0 y0 Hm Hgcd) as [-> ->];
        [lia..|reflexivity].
    + assert (b + d' <= y0); [|lia].
      apply (neighbours_gap a b c d' x0 y0); lia.
  - destruct (Z.eq_dec (a * y0) (x0 * b)) as [E|N].
    + assert (Hm : Z.gcd a b = 1).
      { apply Z.bezout_1_gcd. exists (- d'), c. lia. }
      destruct (lowest_terms_unique a b x0 y0 Hm Hgcd) as [-> ->];
        [lia..|reflexivity].
    + assert (b + d' <= y0); [|lia].
      apply (neighbours_gap a b c d' x0 y0); lia.
Qed.


Lemma apply_limiter_idempotent_in_range_witness :
  Binary64.approximate 10 16 9 = Some (inr (16, 9)).
Proof.
  apply (apply_limiter_idempotent_in_range 10 16 9); [lia|lia|reflexivity|lia|lia].
Defined.

(** X2. For a width of at least 0, a height of at least 1 and a limiter of
    at least 1, with [limiter <= 2^50], [width * limiter <= 2^50] and
    [height <= 2^1000], the pair returned by [_apply_limiter(width / height)]
    is in lowest terms, its numerator is not negative, its denominator lies
    between 1 and twice the limiter, and it is at most the limiter whenever
    the fraction returned is not the quotient itself. *)
Theorem apply_limiter_within_limit (limiter width height : Z) :
  0 <= width -> 1 <= height <= 2 ^ 1000 ->
  1 <= limiter <= 2 ^ 50 -> width * limiter <= 2 ^ 50 ->
  exists x y,
    Binary64.approximate limiter width height = Some (inr (x, y)) /\
    0 <= x /\ 1 <= y <= 2 * limiter /\ Z.gcd x y = 1 /\
    (x * height <> width * y -> y <= limiter).
Proof.
  intros Hw Hh Hl Hs.
  destruct (approximate_final limiter width height Hw Hh Hl Hs)
    as (result & lo & up & Hres & Hbt & Hstop).
  exists (fst result), (snd result).
  split; [rewrite Hres; destruct result; reflexivity|].
  destruct Hbt as [[Ha Hb Hc Hd'] Hdet Hlo Hup Hlb Hld].
  destruct lo as [a b], up as [c d']. cbn [fst snd] in *.
  destruct Hstop as [m He|m Hg Hover|m Hg Hover]; subst m; unfold mediant_of in *;
    cbn [fst snd] in *; (repeat split; try lia).
  - apply Z.bezout_1_gcd. exists (- d'), c. lia.
  - apply Z.bezout_1_gcd. exists b, (- a). lia.
  - apply Z.bezout_1_gcd. exists (- d'), c. lia.
Qed.


Lemma apply_limiter_within_limit_witness :
  exists x y,
    Binary64.approximate 10 2560 1080 = Some (inr (x, y)) /\
    0 <= x /\ 1 <= y <= 2 * 10 /\ Z.gcd x y = 1 /\
    (x * 1080 <> 2560 * y -> y <= 10).
Proof.
  apply (apply_limiter_within_limit 10 2560 1080); lia.
Defined.

(** X3. For a width of at least 0, a height of at least 1 and a limiter of
    at least 1, with [limiter <= 2^50], [width * limiter <= 2^50] and
    [height <= 2^1000], the fraction [x/y] returned by
    [_apply_limiter(width / height)] is within [1 / (y * (limiter + 1))] of
    the quotient [width / height]. *)
Theorem apply_limiter_error_bound (limiter width height : Z) :
  0 <= width -> 1 <= height <= 2 ^ 1000 ->
  1 <= limiter <= 2 ^ 50 -> width * limiter <= 2 ^ 50 ->
  exists result,
    Binary64.approximate limiter width height = Some (inr result) /\
    1 <= snd result /\
    (Qabs (value result - ratio_of width height)
       <= 1 # Z.to_pos (snd result * (limiter + 1)))%Q.
Proof.
  intros Hw Hh Hl Hs.
  destruct (approximate_final limiter width height Hw Hh Hl Hs)
    as (result & lo & up & Hres & Hbt & Hstop).
  exists result. split; [exact Hres|].
  destruct Hbt as [[Ha Hb Hc Hd'] Hdet Hlo Hup Hlb Hld].
  destruct lo as [a b], up as [c d']. cbn [fst snd] in *.
  destruct (ratio_of_num_den width height ltac:(lia)) as [Hp Hq].
  assert (Hh1 : 1 <= height) by lia. assert (Hl1 : 1 <= limiter) by lia.
  clear Hres Hh Hl Hs.
  assert (Hid : b * (c * height - width * d') + d' * (width * b - a * height) = height).
  { replace height with ((b * c - a * d') * height) at 3 by (rewrite Hdet; lia). ring. }
  assert (Hy : 1 <= snd result).
  { destruct Hstop as [m He|m Hg Hover|m Hg Hover]; subst m; unfold mediant_of in *;
      cbn [fst snd] in *; lia. }
  split; [exact Hy|].
  apply Qabs_Qle_condition.
  unfold Qle, Qminus, Qplus, Qopp, value. cbn [Qnum Qden].
  rewrite !Pos2Z.inj_mul, Hp, Hq, !Z2Pos.id by nia.
  destruct Hstop as [m He|m Hg Hover|m Hg Hover]; subst m;
    unfold mediant_of in *; cbn [fst snd] in *.
  - replace ((a + c) * height + - width * (b + d')) with 0 by lia.
    rewrite Z.mul_0_l. split; nia.
  - set (u := c * height - width * d') in *. set (v := width * b - a * height) in *.
    assert (Hu : 0 <= u) by (unfold u; lia).
    assert (Huv : u <= v) by (unfold u, v; lia).
    assert (Hm : u * (b + d') <= height) by nia.
    assert (Hn : u * (limiter + 1) <= u * (b + d')) by nia.
    replace (c * height + - width * d') with u by (unfold u; lia).
    split.
    + assert (0 <= u * (d' * (limiter + 1))) by nia. nia.
    + replace (u * (d' * (limiter + 1))) with (d' * (u * (limiter + 1))) by ring.
      replace (1 * (d' * height)) with (d' * height) by ring.
      apply Z.mul_le_mono_nonneg_l; lia.
  - set (u := c * height - width * d') in *. set (v := width * b - a * height) in *.
    assert (Hv : 0 <= v) by (unfold v; lia).
    assert (Huv : v <= u) by (unfold u, v; lia).
    assert (Hm : v * (b + d') <= height) by nia.
    assert (Hn : v * (limiter + 1) <= v * (b + d')) by nia.
    replace (a * height + - width * b) with (- v) by (unfold v; lia).
    split.
    + replace (- v * (b * (limiter + 1))) with (- (b * (v * (limiter + 1)))) by ring.
      replace (- (1) * (b * height)) with (- (b * height)) by ring.
      apply -> Z.opp_le_mono. apply Z.mul_le_mono_nonneg_l; lia.
    + assert (0 <= v * (b * (limiter + 1))) by nia. nia.
Qed.

Lemma apply_limiter_error_bound_witness :
  exists result,
    Binary64.approximate 10 2560 1080 = Some (inr result) /\
    1 <= snd result /\
    (Qabs (value result - ratio_of 2560 1080)
       <= 1 # Z.to_pos (snd result * (10 + 1)))%Q.
Proof.
  apply (apply_limiter_error_bound 10 2560 1080); lia.
Defined.

(* ===================================================================== *)
(** * Facts about the output directory                                    *)
(* ===================================================================== *)

Import Py Allocator.

Lemma list_ascii_of_string_app s t :
  list_ascii_of_string (s +:+ t) = list_ascii_of_string s ++ list_ascii_of_string t.
Proof. induction s as [|c s IH]; simpl; [reflexivity|]. f_equal. exact IH. Qed.

Lemma string_app_inv_tail s1 s2 t : s1 +:+ t = s2 +:+ t -> s1 = s2.
Proof.
  intros E. apply (f_equal list_ascii_of_string) in E.
  rewrite !list_ascii_of_string_app in E. apply app_inv_tail in E.
  rewrite <- (string_of_list_ascii_of_string s1), <- (string_of_list_ascii_of_string s2).
  by rewrite E.
Qed.

Section AllocatorFacts.

Variable fs : gset path.
Variable target_path : path.
Variable limiter : Z.

Local Abbreviation numbered := (Allocator.numbered target_path limiter).
Local Abbreviation search := (Allocator.search fs target_path limiter).
Local Abbreviation base := (joinpath (parent target_path) (base_name target_path limiter)).

Lemma numbered_inj n m : numbered n = numbered m -> n = m.
Proof.
  unfold Allocator.numbered, joinpath. intros E.
  apply app_inv_head in E. injection E as E.
  apply String.app_inj in E. apply String.app_inj in E.
  apply string_app_inv_tail in E. by apply (inj pretty) in E.
Qed.

Lemma search_some fuel : forall counter r,
  search fuel counter = Some r ->
  exists n, counter <= n /\ r = numbered n /\ (numbered n ∉ fs) /\
            forall k, counter <= k < n -> numbered k ∈ fs.
Proof.
  induction fuel as [|fuel IH]; intros counter r; simpl; [discriminate|].
  unfold exists_. case_bool_decide as Hin; simpl.
  - intros Hr. destruct (IH _ _ Hr) as (n & Hn & -> & Hfree & Hbelow).
    exists n. repeat split; [lia|assumption|].
    intros k Hk. destruct (decide (k = counter)) as [->|Hne]; [assumption|].
    apply Hbelow. lia.
  - intros [= <-]. exists counter. repeat split; [lia|assumption|]. intros k Hk. lia.
Qed.

Lemma search_finds fuel : forall counter n,
  counter <= n < counter + Z.of_nat fuel -> numbered n ∉ fs ->
  exists r, search fuel counter = Some r.
Proof.
  induction fuel as [|fuel IH]; intros counter n Hn Hfree; [lia|]. simpl.
  unfold exists_. case_bool_decide as Hin; simpl; [|eauto].
  apply (IH (counter + 1) n); [|assumption].
  assert (n <> counter) by (intros ->; contradiction). lia.
Qed.

(** A finite file system cannot hold every numbered candidate. *)
Lemma some_number_free :
  exists n, 1 <= n < 1 + Z.of_nat (S (size fs)) /\ numbered n ∉ fs.
Proof.
  set (l := seqZ 1 (Z.of_nat (S (size fs)))).
  destruct (decide (Forall (fun n => numbered n ∈ fs) l)) as [Hall|Hnot].
  - exfalso.
    assert (Hle : (size (list_to_set (numbered <$> l) : gset path) <= size fs)%nat).
    { apply subseteq_size. intros x Hx.
      apply elem_of_list_to_set, list_elem_of_fmap in Hx as (n & -> & Hn).
      rewrite Forall_forall in Hall. by apply Hall. }
    rewrite size_list_to_set in Hle.
    + unfold l in Hle. rewrite length_fmap, length_seqZ in Hle. lia.
    + apply NoDup_fmap_2_strong; [|apply NoDup_seqZ].
      intros n m _ _. apply numbered_inj.
  - apply not_Forall_Exists in Hnot; [|apply _].
    apply Exists_exists in Hnot as (n & Hin & Hn).
    exists n. split; [|exact Hn]. apply elem_of_seqZ in Hin. lia.
Qed.

(** The allocator always returns, and what it returns does not exist. *)
Lemma generate_unique_path_fresh :
  exists r, _generate_unique_path fs target_path limiter = Some r /\ r ∉ fs.
Proof.
  unfold _generate_unique_path, exists_. case_bool_decide as Hin; cbn [negb]; [|eauto].
  destruct some_number_free as (n & Hn & Hfree).
  destruct (search_finds (S (size fs)) 1 n Hn Hfree) as [r Hr].
  exists r. split; [assumption|].
  destruct (search_some _ _ _ Hr) as (m & _ & -> & Hm & _). exact Hm.
Qed.

(** When the base name is taken, the allocator returns the candidate with
    the least number, from 1 on, that does not exist. *)
Lemma generate_unique_path_least :
  base ∈ fs ->
  exists n, 1 <= n /\
    _generate_unique_path fs target_path limiter = Some (numbered n) /\
    (numbered n ∉ fs) /\ forall k, 1 <= k < n -> numbered k ∈ fs.
Proof.
  intros Hbase. destruct generate_unique_path_fresh as (r & Hr & _).
  revert Hr. unfold _generate_unique_path, exists_.
  case_bool_decide as Hin; cbn [negb]; [|contradiction].
  intros Hr. destruct (search_some _ _ _ Hr) as (n & Hn & -> & Hfree & Hbelow).
  exists n. auto.
Qed.

End AllocatorFacts.

(** C8, as stated, fails: the allocator only reads the file system, so two
    calls against the same state return the same path, not two distinct
    ones. *)
Lemma generate_unique_path_same_twice :
  let fs : gset path := {[ ["photos_sorted_L10"] ]} in
  ["photos_sorted_L10"] ∈ fs /\
  _generate_unique_path fs ["photos"] 10 = Some ["photos_sorted_L10 (1)"] /\
  ~ (exists p1 p2,
       _generate_unique_path fs ["photos"] 10 = Some p1 /\
       _generate_unique_path fs ["photos"] 10 = Some p2 /\
       p1 <> p2).
Proof.
  intros fs. split; [set_solver|]. split; [reflexivity|].
  intros (p1 & p2 & H1 & H2 & Hne). congruence.
Qed.

(** The suffix grows once the path returned first exists, and a free base
    name is returned as it is, also for a negative limiter. *)
Example generate_unique_path_second :
  _generate_unique_path
    {[ ["photos_sorted_L10"]; ["photos_sorted_L10 (1)"] ]} ["photos"] 10
  = Some ["photos_sorted_L10 (2)"].
Proof. reflexivity. Qed.

Example generate_unique_path_free :
  _generate_unique_path ∅ ["home"; "photos"] (-3)
  = Some ["home"; "photos_sorted_L-3"].
Proof. reflexivity. Qed.

(** C8, amended. When the base name exists, a call returns the numbered
    path with the least number from 1 on that does not exist, so a path
    that does not exist at call time; being a function of the file system
    it returns the same path when called again on the same state; and once
    the path returned exists (nothing else having been removed), a call
    returns a different path with a greater number, which does not exist. *)
Theorem generate_unique_path_increasing
    (fs : gset path) (target_path : path) (limiter : Z) :
  joinpath (parent target_path) (base_name target_path limiter) ∈ fs ->
  fresh_and_increasing fs target_path limiter.
Proof.
  intros Hbase.
  destruct (generate_unique_path_least fs target_path limiter Hbase)
    as (n1 & Hn1 & Hcall & Hfree & Hbelow).
  exists n1. repeat split; try assumption.
  intros fs' Hsub Hmade.
  destruct (generate_unique_path_least fs' target_path limiter (Hsub _ Hbase))
    as (n2 & Hn2 & Hcall' & Hfree' & Hbelow').
  exists n2.
  assert (Hlt : n1 < n2).
  { destruct (Z.lt_ge_cases n1 n2) as [|Hge]; [assumption|]. exfalso.
    destruct (decide (n2 = n1)) as [->|Hne]; [contradiction|].
    apply Hfree', Hsub, Hbelow. lia. }
  repeat split; try assumption.
  intros E. apply numbered_inj in E. lia.
Qed.

Lemma generate_unique_path_increasing_witness :
  fresh_and_increasing {[ ["photos_sorted_L10"] ]} ["photos"] 10.
Proof.
  apply (generate_unique_path_increasing {[ ["photos_sorted_L10"] ]} ["photos"] 10).
  apply elem_of_singleton. reflexivity.
Defined.

(* ===================================================================== *)
(** * Facts about the dimension probe                                     *)
(* ===================================================================== *)

Import Probe.

Section ProbeFacts.

Context {Parser : Type}.
Variable Image_open : path -> result (Z * Z).
Variable createParser : path -> option Parser.
Variable extractMetadata : Parser -> option (gmap string Z).

Local Abbreviation probe := (_get_dimensions Image_open createParser extractMetadata).
Local Abbreviation from_metadata := (Probe.from_metadata createParser extractMetadata).
Local Abbreviation extracted := (Probe.extracted createParser extractMetadata).
Local Abbreviation no_width := (Probe.no_width createParser extractMetadata).
Local Abbreviation decoded := (Probe.decoded Image_open).
Local Abbreviation falls_back := (Probe.falls_back Image_open).
Local Abbreviation decoder_raises := (Probe.decoder_raises Image_open).

(** Lines 74-81 in terms of what the extractor gives. *)
Lemma from_metadata_cases file_path :
  from_metadata file_path =
    match extracted file_path with
    | Some metadata =>
        match metadata !! "width", metadata !! "height" with
        | Some width, Some height => inr (width, height)
        | Some _, None => inl (missing "height")
        | None, _ => inl unavailable
        end
    | None => inl unavailable
    end.
Proof.
  unfold Probe.from_metadata, Probe.extracted.
  destruct (createParser file_path) as [parser|]; [|reflexivity].
  destruct (extractMetadata parser) as [metadata|]; [|reflexivity].
  unfold has, get.
  destruct (metadata !! "width") as [width|] eqn:Hw.
  - rewrite bool_decide_eq_true_2 by eauto.
    destruct (metadata !! "height"); reflexivity.
  - rewrite bool_decide_eq_false_2 by (intros [? ?]; discriminate).
    destruct (metadata !! "height"); reflexivity.
Qed.

(** The probe is the decoder's answer, the exception it lets through, or
    lines 74-81. *)
Lemma get_dimensions_falls_back file_path :
  falls_back file_path -> probe file_path = from_metadata file_path.
Proof.
  unfold Probe.falls_back, _get_dimensions.
  intros [-> | (e & -> & ->)]; [reflexivity|].
  destruct (is_image file_path); reflexivity.
Qed.

Lemma get_dimensions_trichotomy file_path :
  (exists width height, decoded file_path width height) \/
  (exists e, decoder_raises file_path e) \/
  falls_back file_path.
Proof.
  unfold Probe.decoded, Probe.decoder_raises, Probe.falls_back.
  destruct (is_image file_path); [|auto].
  destruct (Image_open file_path) as [e|[width height]]; [|eauto 6].
  destruct (caught e) eqn:Hc; eauto 8.
Qed.

End ProbeFacts.

(** ** The probe when every collaborator may raise *)

Section FullProbeFacts.

Context {Parser : Type}.
Variable Image_open : path -> result (Z * Z).
Variable createParser : path -> result (option Parser).
Variable extractMetadata : Parser -> result (option (gmap string Z)).

(** Lines 74-81 in terms of what the extractor gives. *)
Lemma full_from_metadata_cases file_path :
  FullProbe.from_metadata createParser extractMetadata file_path =
    match FullProbe.extracted createParser extractMetadata file_path with
    | inl e => inl e
    | inr (Some metadata) =>
        match metadata !! "width", metadata !! "height" with
        | Some width, Some height => inr (width, height)
        | Some _, None => inl (missing "height")
        | None, _ => inl unavailable
        end
    | inr None => inl unavailable
    end.
Proof.
  unfold FullProbe.from_metadata, FullProbe.extracted.
  destruct (createParser file_path) as [e|[parser|]]; [reflexivity| |reflexivity].
  destruct (extractMetadata parser) as [e|[metadata|]]; [reflexivity| |reflexivity].
  unfold has, get.
  destruct (metadata !! "width") as [width|] eqn:Hw.
  - rewrite bool_decide_eq_true_2 by eauto.
    destruct (metadata !! "height"); reflexivity.
  - rewrite bool_decide_eq_false_2 by (intros [? ?]; discriminate).
    destruct (metadata !! "height"); reflexivity.
Qed.

Lemma full_get_dimensions_falls_back file_path :
  falls_back Image_open file_path ->
  FullProbe._get_dimensions Image_open createParser extractMetadata file_path
  = FullProbe.from_metadata createParser extractMetadata file_path.
Proof.
  unfold Probe.falls_back, FullProbe._get_dimensions.
  intros [-> | (e & -> & ->)]; [reflexivity|].
  destruct (is_image file_path); reflexivity.
Qed.

End FullProbeFacts.

(** The probe of [Probe] is this one with a [createParser] and an
    [extractMetadata] that never raise. *)
Lemma get_dimensions_total_collaborators {Parser : Type}
    (Image_open : path -> result (Z * Z))
    (createParser : path -> option Parser)
    (extractMetadata : Parser -> option (gmap string Z))
    (file_path : path) :
  _get_dimensions Image_open createParser extractMetadata file_path
  = FullProbe._get_dimensions Image_open
      (fun p => inr (createParser p)) (fun parser => inr (extractMetadata parser))
      file_path.
Proof.
  unfold _get_dimensions, FullProbe._get_dimensions, from_metadata,
    FullProbe.from_metadata.
  destruct (createParser file_path) as [parser|]; [|reflexivity].
  destruct (extractMetadata parser); reflexivity.
Qed.

(** C9, amended. For every file and every behaviour of the collaborators,
    exceptions of [createParser] and [extractMetadata] included. The probe
    returns [(width, height)] exactly when the decoder, asked because of a
    still-image extension, gives them, or when the extractor is asked (the
    decoder was not, or raised one of the two exceptions caught) and its
    metadata hold both; the values are the collaborator's, whatever their
    sign. The probe raises [e] exactly in these cases: the decoder raises
    [e], which is not one of the two exceptions caught; or the extractor is
    asked and [createParser] or [extractMetadata] raises [e]; or the
    extractor is asked and gives no parser, no metadata or no width, and [e]
    is the error of line 81; or the extractor is asked, its metadata hold a
    width and no height, and [e] is the error of [metadata.get]. *)
Theorem get_dimensions_cases {Parser : Type}
    (Image_open : path -> result (Z * Z))
    (createParser : path -> result (option Parser))
    (extractMetadata : Parser -> result (option (gmap string Z)))
    (file_path : path) :
  let result :=
    FullProbe._get_dimensions Image_open createParser extractMetadata file_path in
  let metadata := FullProbe.extracted createParser extractMetadata file_path in
  (forall width height,
     result = inr (width, height) <->
     decoded Image_open file_path width height \/
     (falls_back Image_open file_path /\
      exists md, metadata = inr (Some md) /\
                 md !! "width" = Some width /\ md !! "height" = Some height)) /\
  (forall e,
     result = inl e <->
     decoder_raises Image_open file_path e \/
     (falls_back Image_open file_path /\
      (metadata = inl e \/
       (FullProbe.no_width createParser extractMetadata file_path /\ e = unavailable) \/
       (FullProbe.no_height createParser extractMetadata file_path
        /\ e = missing "height")))).
Proof.
  intros result metadata. subst result metadata.
  unfold FullProbe.no_width, FullProbe.no_height.
  destruct (get_dimensions_trichotomy Image_open file_path)
    as [(w & h & Hi & Ho) | [(e0 & Hi & Ho & Hc) | Hf]].
  - (* the decoder answered *)
    assert (Hres : FullProbe._get_dimensions Image_open createParser extractMetadata
                     file_path = inr (w, h)).
    { unfold FullProbe._get_dimensions. rewrite Hi, Ho. reflexivity. }
    rewrite Hres. unfold decoded, falls_back, decoder_raises. rewrite Hi, Ho.
    split.
    + intros width height. split.
      * intros [= <- <-]. left. auto.
      * intros [[_ [= <- <-]] | [[?|(e & ? & _)] _]]; [reflexivity|discriminate..].
    + intros e. split; [discriminate|].
      intros [(_ & ? & _) | [[?|(e' & ? & _)] _]]; discriminate.
  - (* the decoder raised an exception that is not caught *)
    assert (Hres : FullProbe._get_dimensions Image_open createParser extractMetadata
                     file_path = inl e0).
    { unfold FullProbe._get_dimensions. rewrite Hi, Ho, Hc. reflexivity. }
    rewrite Hres. unfold decoded, falls_back, decoder_raises. rewrite Hi, Ho.
    split.
    + intros width height. split; [discriminate|].
      intros [[_ ?] | [[?|(e & [= <-] & ?)] _]]; [discriminate..|congruence].
    + intros e. split.
      * intros [= <-]. left. auto.
      * intros [(_ & [= <-] & _) | [[?|(e' & [= <-] & ?)] _]];
          [reflexivity|discriminate|congruence].
  - (* the extractor is asked *)
    rewrite (full_get_dimensions_falls_back _ _ _ _ Hf), full_from_metadata_cases.
    assert (Hnd : forall w h, ~ decoded Image_open file_path w h).
    { intros w h [Hi Ho]. destruct Hf as [Hf|(e & He & _)]; congruence. }
    assert (Hnr : forall e, ~ decoder_raises Image_open file_path e).
    { intros e (Hi & Ho & Hc). destruct Hf as [Hf|(e' & He & Hc')]; congruence. }
    destruct (FullProbe.extracted createParser extractMetadata file_path)
      as [e0|[md|]] eqn:Hmd.
    + split.
      * intros width height. split; [discriminate|].
        intros [Hd | (_ & md & ? & _)]; [by apply Hnd in Hd|discriminate].
      * intros e. split.
        -- intros [= <-]. right. split; [assumption|]. left. reflexivity.
        -- intros [Hr | (_ & [[= <-] | [[[?|(md & ? & _)] _] | [(md & ? & _) _]]])];
             [by apply Hnr in Hr|reflexivity|discriminate..].
    + destruct (md !! "width") as [w|] eqn:Hw; [destruct (md !! "height") as [h|] eqn:Hh|].
      * split.
        -- intros width height. split.
           ++ intros [= <- <-]. right. split; [assumption|]. exists md. auto.
           ++ intros [Hd | (_ & md' & [= <-] & Hw' & Hh')]; [by apply Hnd in Hd|].
              congruence.
        -- intros e. split; [discriminate|].
           intros [Hr | (_ & [? | [[[?|(md' & [= <-] & ?)] _] | [(md' & [= <-] & _ & ?) _]]])];
             [by apply Hnr in Hr|discriminate|discriminate|congruence|congruence].
      * split.
        -- intros width height. split; [discriminate|].
           intros [Hd | (_ & md' & [= <-] & _ & ?)]; [by apply Hnd in Hd|congruence].
        -- intros e. split.
           ++ intros [= <-]. right. split; [assumption|]. right. right.
              split; [|reflexivity]. exists md. rewrite Hw. auto.
           ++ intros [Hr | (_ & [? | [[[?|(md' & [= <-] & ?)] _] | [_ ->]]])];
                [by apply Hnr in Hr|discriminate|discriminate|congruence|reflexivity].
      * split.
        -- intros width height. split; [discriminate|].
           intros [Hd | (_ & md' & [= <-] & ? & _)]; [by apply Hnd in Hd|congruence].
        -- intros e. split.
           ++ intros [= <-]. right. split; [assumption|]. right. left.
              split; [|reflexivity]. right. exists md. auto.
           ++ intros [Hr | (_ & [? | [[_ ->] | [(md' & [= <-] & [? ?] & _) _]]])];
                [by apply Hnr in Hr|discriminate|reflexivity|congruence].
    + split.
      * intros width height. split; [discriminate|].
        intros [Hd | (_ & md & ? & _)]; [by apply Hnd in Hd|discriminate].
      * intros e. split.
        -- intros [= <-]. right. split; [assumption|]. right. left. auto.
        -- intros [Hr | (_ & [? | [[_ ->] | [(md & ? & _) _]]])];
             [by apply Hnr in Hr|discriminate|reflexivity|discriminate].
Qed.

(** C9, as stated, fails: a width of 0 reported by the extractor is
    returned as it is; metadata with a width and no height make the probe
    fail with another error than that of line 81; and so does a
    [createParser] that raises, as hachoir does on an empty file. *)
Lemma get_dimensions_unchecked :
  let probe (md : gmap string Z) :=
    FullProbe._get_dimensions (Parser := unit)
      (fun _ => inl (Exn IOError "cannot read"))
      (fun _ => inr (Some tt)) (fun _ => inr (Some md))
      ["clip.mp4"] in
  let empty := Exn OtherException "empty input" in
  probe {[ "width" := 0; "height" := 1080 ]} = inr (0, 1080) /\
  probe {[ "width" := 1920 ]} = inl (missing "height") /\
  missing "height" <> unavailable /\
  FullProbe._get_dimensions (Parser := unit)
    (fun _ => inl (Exn UnidentifiedImageError "cannot identify image file"))
    (fun _ => inl empty) (fun _ => inr None) ["empty.jpg"] = inl empty /\
  empty <> unavailable.
Proof.
  cbv zeta.
  split; [vm_compute; reflexivity|]. split; [vm_compute; reflexivity|].
  split; [vm_compute; discriminate|]. split; [vm_compute; reflexivity|].
  vm_compute; discriminate.
Qed.

(* ===================================================================== *)
(** * Facts about the run                                                 *)
(* ===================================================================== *)

Import Pipeline.

Lemma values_sum_incr key stats : values_sum (incr key stats) = values_sum stats + 1.
Proof.
  induction stats as [|[k c] rest IH]; cbn; [lia|].
  destruct (String.eqb k key); cbn; [lia|]. unfold values_sum in IH. rewrite IH. lia.
Qed.

Lemma records_snoc lvl l lvl' msg :
  records lvl (l ++ [(lvl', msg)])
  = (records lvl l + if decide (lvl' = lvl) then 1 else 0)%nat.
Proof.
  unfold records. rewrite filter_app, length_app, filter_cons, filter_nil.
  cbn [fst]. destruct (decide (lvl' = lvl)); reflexivity.
Qed.

Section PipelineFacts.

Context {World Parser : Type}.
Variable Image_open : World -> path -> result (Z * Z).
Variable createParser : World -> path -> option Parser.
Variable extractMetadata : Parser -> option (gmap string Z).
Variable mkdir : path -> World -> result unit * World.
Variable stat_size : World -> path -> result Z.
Variable move : path -> path -> World -> result unit * World.
Variable copy2 : path -> path -> World -> result unit * World.
Variable self : MediaSorter.

Local Abbreviation process :=
  (Pipeline.process Image_open createParser extractMetadata mkdir stat_size move copy2 self).
Local Abbreviation each :=
  (Pipeline.each Image_open createParser extractMetadata mkdir stat_size move copy2 self).
Local Abbreviation for_each :=
  (Pipeline.for_each Image_open createParser extractMetadata mkdir stat_size move copy2 self).

(** The body of [try] either raises with the counters as they were, or
    returns having counted one file under one label. *)
Lemma process_outcome file (st st' : @state World) r :
  process file st = (r, st') ->
  (exists e, r = inl e /\ same_counters st st') \/
  (r = inr tt /\ exists label size,
     stats st' = incr label (stats st) /\
     total_size_bytes st' = total_size_bytes st + size /\
     log st' = log st ++ [(INFO, "Sorted: " +:+ name file +:+ " -> " +:+ label)] /\
     stdout st' = stdout st).
Proof.
  unfold Pipeline.process, mbind, M_bind, bind, lift, on_world, truediv,
    apply_limiter, count, add_size, logging, ret, raise, same_counters.
  intros H.
  repeat (case_match; simplify_eq/=); eauto 10.
Qed.


(** One turn of [for] never raises. A file with another extension changes
    nothing; a file whose processing raises adds one [ERROR] record and
    leaves the counters as they were; any other file is counted once. *)
Lemma each_outcome file (st : @state World) :
  exists st', each file st = (inr tt, st') /\
    ((is_valid file = false /\ st' = st) \/
     (is_valid file = true /\
      exists e st1, process file st = (inl e, st1) /\
        stats st' = stats st /\ total_size_bytes st' = total_size_bytes st /\
        stdout st' = stdout st /\ world st' = world st1 /\
        log st' = log st ++ [(ERROR, "Skipping " +:+ name file +:+ ": " +:+ exn_msg e)]) \/
     (is_valid file = true /\ process file st = (inr tt, st') /\
      exists label size,
        stats st' = incr label (stats st) /\
        total_size_bytes st' = total_size_bytes st + size /\
        log st' = log st ++ [(INFO, "Sorted: " +:+ name file +:+ " -> " +:+ label)] /\
        stdout st' = stdout st)).
Proof.
  unfold Pipeline.each. destruct (is_valid file); cbn [negb].
  - unfold try_except.
    destruct (process file st) as [r st1] eqn:Hp.
    destruct (process_outcome _ _ _ _ Hp) as [(e & -> & Hs & Ht & Hl & Ho) | (-> & Hsorted)].
    + eexists. split; [reflexivity|]. right. left. split; [reflexivity|].
      exists e, st1. cbn. rewrite Hl. auto 10.
    + eexists. split; [reflexivity|]. right. right. auto.
  - exists st. split; [reflexivity|]. left. auto.
Qed.

(** The loop never raises. *)
Lemma for_each_returns files : forall st : @state World,
  exists st', for_each files st = (inr tt, st').
Proof.
  induction files as [|file rest IH]; intros st; cbn [Pipeline.for_each].
  - eexists. reflexivity.
  - unfold mbind, M_bind, bind.
    destruct (each_outcome file st) as (st1 & -> & _). apply IH.
Qed.

Lemma for_each_cons file rest (st : @state World) :
  for_each (file :: rest) st = for_each rest (snd (each file st)).
Proof.
  cbn [Pipeline.for_each]. unfold mbind, M_bind, bind.
  destruct (each_outcome file st) as (st1 & -> & _). reflexivity.
Qed.

Lemma for_each_app before after : forall st : @state World,
  for_each (before ++ after) st = for_each after (snd (for_each before st)).
Proof.
  induction before as [|file rest IH]; intros st; [reflexivity|].
  rewrite <- app_comm_cons, !for_each_cons. apply IH.
Qed.

(** Every file with a valid extension leaves exactly one log record, and
    the counters grow by one for each [INFO] record. *)
Lemma for_each_counts files : forall st : @state World,
  let st' := snd (for_each files st) in
  length (log st') = (length (log st) + length (filter (fun f => is_valid f = true) files))%nat /\
  values_sum (stats st') - values_sum (stats st)
    = Z.of_nat (records INFO (log st')) - Z.of_nat (records INFO (log st)).
Proof.
  induction files as [|file rest IH]; intros st; cbn zeta.
  - cbn. split; lia.
  - rewrite for_each_cons.
    destruct (each_outcome file st) as (st1 & E & Hcase). rewrite E. cbn [snd].
    destruct (IH st1) as [IHl IHc]. cbn zeta in IHl, IHc.
    rewrite IHl, filter_cons.
    destruct Hcase as [[Hv ->] | [(Hv & e & st0 & _ & Hs & _ & _ & _ & Hl) | (Hv & _ & label & size & Hs & _ & Hl & _)]];
      rewrite Hv.
    + rewrite decide_False by discriminate. split; [lia|exact IHc].
    + rewrite decide_True by reflexivity. rewrite Hl, Hs in *.
      rewrite records_snoc, length_app in *.
      rewrite decide_False in IHc by discriminate. cbn [length] in *. split; lia.
    + rewrite decide_True by reflexivity. rewrite Hl, Hs in *.
      rewrite values_sum_incr in IHc.
      rewrite records_snoc, length_app in *.
      rewrite decide_True in IHc by reflexivity. cbn [length] in *. split; lia.
Qed.

(** C7. Whatever the collaborators do: if the processing of a file with a
    valid extension raises, at whichever step, the turn of the loop ends
    normally with one [ERROR] record added to the log and with the
    per-label counts and the byte total as they were before the file, and
    the loop goes on with the remaining files and returns normally. *)
Theorem run_isolates_failures before file after (st st2 : @state World) (e : exn) :
  is_valid file = true ->
  process file (snd (for_each before st)) = (inl e, st2) ->
  Pipeline.skipped_and_continued Image_open createParser extractMetadata
    mkdir stat_size move copy2 self before file after st e.
Proof.
  intros Hv Hp. unfold Pipeline.skipped_and_continued. cbv zeta.
  set (st1 := snd (for_each before st)) in *.
  destruct (each_outcome file st1) as (st3 & E & Hcase).
  exists st3. split.
  { rewrite for_each_app, for_each_cons. fold st1. rewrite E. reflexivity. }
  destruct Hcase as [[Hv' _] | [(_ & e' & st0 & Hp' & Hs & Ht & _ & _ & Hl) | (_ & Hp' & _)]];
    [congruence| |congruence].
  rewrite Hp in Hp'. injection Hp' as -> ->.
  repeat split; try assumption. apply for_each_returns.
Qed.

End PipelineFacts.

(** The extension [.MKV] written with the Kelvin sign is valid, as it is
    for [str.lower]; an extension with another letter outside ASCII is not. *)
Example is_valid_kelvin :
  is_valid ["in"; "clip.M" +:+ String "226" (String "132" (String "170" "V"))] = true /\
  is_valid ["in"; "clip.M" +:+ String "195" (String "137" "V")] = false.
Proof. split; vm_compute; reflexivity. Qed.

(** Three 16:9 pictures, a square one, an unreadable one and a text file,
    with the limiter 10, in copy mode. *)
Example run_small_directory :
  Example.run (initial tt) =
    (inr tt,
     State tt [("16X9", 3); ("1X1", 1)] 4000000
       [(INFO, "Starting sort in: in");
        (INFO, "Sorted: a.jpg -> 16X9");
        (INFO, "Sorted: b.JPG -> 16X9");
        (INFO, "Sorted: c.png -> 1X1");
        (ERROR, "Skipping bad.jpg: Unsupported format or missing dimension metadata.");
        (INFO, "Sorted: d.jpeg -> 16X9")]
       [nl +:+ bar; "SORT SUMMARY"; bar;
        "Total Files Processed: 4";
        "Total Data handled:    3.81 MB";
        "Most Common Ratio: 16X9 (3 files)";
        bar +:+ nl]).
Proof. vm_compute. reflexivity. Qed.

Lemma run_isolates_failures_witness :
  Pipeline.skipped_and_continued Example.Image_open Example.createParser
    Example.extractMetadata Example.mkdir Example.stat_size Example.copy
    Example.copy Example.sorter
    [["in"; "a.jpg"]] ["in"; "bad.jpg"] [["in"; "c.png"]]
    (initial tt) Probe.unavailable.
Proof.
  apply (run_isolates_failures Example.Image_open Example.createParser
           Example.extractMetadata Example.mkdir Example.stat_size Example.copy
           Example.copy Example.sorter
           [["in"; "a.jpg"]] ["in"; "bad.jpg"] [["in"; "c.png"]] (initial tt)
           (snd (Example.process ["in"; "bad.jpg"]
                   (snd (Example.for_each [["in"; "a.jpg"]] (initial tt)))))
           Probe.unavailable);
    vm_compute; reflexivity.
Defined.

(* ===================================================================== *)
(** * Facts about the counter and the summary                             *)
(* ===================================================================== *)

Section CounterFacts.

Lemma keys_incr key stats :
  (incr key stats).*1 = if decide (key ∈ stats.*1) then stats.*1 else stats.*1 ++ [key].
Proof.
  induction stats as [|[k c] rest IH]; cbn [incr fmap list_fmap fst].
  - rewrite decide_False by (apply not_elem_of_nil). reflexivity.
  - destruct (String.eqb_spec k key) as [->|Hne]; cbn [fmap list_fmap fst].
    + rewrite decide_True by (apply list_elem_of_here). reflexivity.
    + fold (@fmap list _ _ _ (@fst string Z) (incr key rest)). rewrite IH.
      destruct (decide (key ∈ rest.*1)) as [Hin|Hnin].
      * rewrite decide_True by (apply list_elem_of_further, Hin). reflexivity.
      * rewrite decide_False; [reflexivity|].
        intros [E|Hin]%elem_of_cons; [congruence|contradiction].
Qed.

Lemma count_of_incr key label stats :
  count_of key (incr label stats)
  = count_of key stats + (if decide (label = key) then 1 else 0).
Proof.
  induction stats as [|[k c] rest IH]; cbn [incr count_of].
  - destruct (String.eqb_spec label key), (decide (label = key)); congruence || lia.
  - destruct (String.eqb_spec k label) as [->|Hne]; cbn [count_of].
    + destruct (String.eqb_spec label key), (decide (label = key)); congruence || lia.
    + destruct (String.eqb_spec k key) as [->|Hne'].
      * rewrite decide_False by congruence. lia.
      * exact IH.
Qed.

Lemma count_of_elem key c stats :
  NoDup stats.*1 -> (key, c) ∈ stats -> count_of key stats = c.
Proof.
  induction stats as [|[k c'] rest IH]; cbn [fmap list_fmap fst count_of].
  - intros _ H. by apply not_elem_of_nil in H.
  - fold (@fmap list _ _ _ (@fst string Z) rest).
    intros [Hk Hnd]%NoDup_cons [E|Hin]%elem_of_cons.
    + injection E as <- <-. by rewrite String.eqb_refl.
    + destruct (String.eqb_spec k key) as [->|Hne]; [|auto].
      exfalso. apply Hk. apply list_elem_of_fmap. exists (key, c). auto.
Qed.

Lemma tally_snoc labels label : tally (labels ++ [label]) = incr label (tally labels).
Proof. unfold tally. rewrite foldl_app. reflexivity. Qed.

Lemma tally_keys labels key : key ∈ (tally labels).*1 <-> key ∈ labels.
Proof.
  induction labels as [|label labels IH] using rev_ind.
  - cbn. split; intros H; by apply not_elem_of_nil in H.
  - rewrite tally_snoc, keys_incr, elem_of_app, list_elem_of_singleton.
    destruct (decide (label ∈ (tally labels).*1)) as [Hin|Hnin].
    + rewrite IH. split; [auto|]. intros [H| ->]; [assumption|]. by apply IH.
    + rewrite elem_of_app, list_elem_of_singleton, IH. reflexivity.
Qed.

Lemma tally_NoDup labels : NoDup (tally labels).*1.
Proof.
  induction labels as [|label labels IH] using rev_ind.
  - cbn. constructor.
  - rewrite tally_snoc, keys_incr. destruct (decide _) as [Hin|Hnin]; [assumption|].
    apply NoDup_app. split; [assumption|]. split; [|apply NoDup_singleton].
    intros x Hx ->%list_elem_of_singleton. contradiction.
Qed.

Lemma tally_count_of labels key : count_of key (tally labels) = occurrences key labels.
Proof.
  unfold occurrences.
  induction labels as [|label labels IH] using rev_ind; [reflexivity|].
  rewrite tally_snoc, count_of_incr, IH, filter_app, length_app, filter_cons, filter_nil.
  destruct (decide (label = key)); cbn [length]; lia.
Qed.

Lemma tally_elem labels key c :
  (key, c) ∈ tally labels -> c = occurrences key labels.
Proof.
  intros H. rewrite <- tally_count_of. symmetry.
  apply count_of_elem; [apply tally_NoDup|assumption].
Qed.

Lemma tally_sum labels : values_sum (tally labels) = Z.of_nat (length labels).
Proof.
  induction labels as [|label labels IH] using rev_ind; [reflexivity|].
  rewrite tally_snoc, length_app. cbn [length].
  rewrite values_sum_incr, IH. lia.
Qed.

(** The keys come in the order in which the labels were first met. *)
Lemma tally_order labels : forall kb key ka other,
  (tally labels).*1 = kb ++ key :: ka -> other ∈ ka -> met_before labels key other.
Proof.
  induction labels as [|label labels IH] using rev_ind; intros kb key ka other.
  - cbn. intros E. by destruct kb.
  - rewrite tally_snoc, keys_incr.
    assert (Hext : met_before labels key other -> met_before (labels ++ [label]) key other).
    { intros (pre & post & -> & Hpre). exists pre, (post ++ [label]).
      split; [|assumption]. by rewrite <- app_assoc. }
    destruct (decide (label ∈ (tally labels).*1)) as [Hin|Hnin].
    + intros E Hother. apply Hext. by apply (IH kb key ka).
    + intros E Hother.
      destruct ka as [|k ka' _] using rev_ind; [by apply not_elem_of_nil in Hother|].
      rewrite app_comm_cons, app_assoc in E. apply app_inj_tail in E as [E <-].
      apply elem_of_app in Hother as [Hother| ->%list_elem_of_singleton].
      * apply Hext. by apply (IH kb key ka').
      * assert (Hkey : key ∈ labels).
        { apply tally_keys. rewrite E. apply elem_of_app. right. apply list_elem_of_here. }
        apply list_elem_of_split in Hkey as (pre & post & ->).
        exists pre, (post ++ [label]). split; [by rewrite <- app_assoc|].
        intros Hpre. apply Hnin, tally_keys, elem_of_app. by left.
Qed.

Lemma max_first_spec items : forall before best mid,
  Forall (fun item => snd item < snd best) before ->
  Forall (fun item => snd item <= snd best) mid ->
  first_max (before ++ best :: mid ++ items) (max_first best items).
Proof.
  induction items as [|item rest IH]; intros before best mid Hb Hm; cbn [max_first].
  - exists before, mid. rewrite app_nil_r. auto.
  - destruct (Z.ltb_spec (snd best) (snd item)) as [Hlt|Hge].
    + replace (before ++ best :: mid ++ item :: rest)
        with ((before ++ best :: mid) ++ item :: [] ++ rest)
        by (rewrite <- app_assoc; reflexivity).
      apply IH; [|constructor].
      apply Forall_app. split; [|constructor].
      * eapply Forall_impl; [exact Hb|]. cbn. intros. lia.
      * lia.
      * eapply Forall_impl; [exact Hm|]. cbn. intros. lia.
    + replace (before ++ best :: mid ++ item :: rest)
        with (before ++ best :: (mid ++ [item]) ++ rest)
        by (rewrite <- (app_assoc mid); reflexivity).
      apply IH; [assumption|].
      apply Forall_app. split; [assumption|]. constructor; [lia|constructor].
Qed.

Lemma most_common_1_first_max item rest :
  exists best, most_common_1 (item :: rest) = [best] /\ first_max (item :: rest) best.
Proof.
  exists (max_first item rest). split; [reflexivity|].
  apply (max_first_spec rest [] item []); constructor.
Qed.

End CounterFacts.

Section FormatFacts.

(** Rounding moves a number by at most one half. *)
Lemma round_half_even_near (x : Q) :
  (Qabs (inject_Z (round_half_even x) - x) <= 1 # 2)%Q.
Proof. apply nearest_even_near. Qed.

Lemma round_half_even_nonneg (x : Q) : (0 <= x)%Q -> 0 <= round_half_even x.
Proof.
  intros Hx. unfold round_half_even, Binary64.nearest_even.
  assert (0 <= Qfloor x).
  { destruct x as [n d]. unfold Qle in Hx. cbn in *. apply Z.div_pos; lia. }
  destruct (_ ?= _)%Q; [destruct (Z.even _)| |]; lia.
Qed.

(** The two decimals printed are within half a hundredth of the number. *)
Lemma hundredths_near (x : Q) :
  (Qabs (inject_Z (round_half_even (x * 100)) / 100 - x) <= 1 # 200)%Q.
Proof.
  pose proof (round_half_even_near (x * 100)) as H.
  apply Qabs_Qle_condition in H. apply Qabs_Qle_condition.
  set (h := round_half_even (x * 100)) in *. clearbody h.
  destruct x as [n d]. revert H.
  unfold Qle, Qminus, Qplus, Qopp, Qdiv, Qmult, Qinv, inject_Z. cbn [Qnum Qden].
  lia.
Qed.

(** A number below 100 is printed with its two digits. *)
Lemma two_digits_spec (n : Z) :
  0 <= n < 100 -> two_digits n = pretty (n / 10) +:+ pretty (n mod 10).
Proof.
  intros Hn.
  assert (H : Forall (fun n => two_digits n = pretty (n / 10) +:+ pretty (n mod 10))
                (seqZ 0 100)).
  { apply (bool_decide_unpack _). vm_compute. exact I. }
  rewrite Forall_forall in H. apply H, elem_of_seqZ. lia.
Qed.

(** A number that is not negative is printed as the integer part of its
    hundredths, a dot, and their last two digits. *)
Lemma format_2f_digits (x : Q) :
  (0 <= x)%Q ->
  let hundredths := round_half_even (x * 100) in
  format_2f x =
    pretty (hundredths / 100) +:+ "."
      +:+ pretty (hundredths mod 100 / 10) +:+ pretty (hundredths mod 10).
Proof.
  intros Hx hundredths. unfold format_2f.
  destruct (Qcompare_spec x 0) as [E|E|E].
  - unfold unsigned_2f. fold hundredths.
    rewrite two_digits_spec by (apply Z.mod_pos_bound; lia).
    replace (hundredths mod 100 mod 10) with (hundredths mod 10); [reflexivity|].
    symmetry. apply Z.mod_mod_divide. exists 10. reflexivity.
  - exfalso. apply (Qlt_irrefl x). eapply Qlt_le_trans; eassumption.
  - unfold unsigned_2f. fold hundredths.
    rewrite two_digits_spec by (apply Z.mod_pos_bound; lia).
    replace (hundredths mod 100 mod 10) with (hundredths mod 10); [reflexivity|].
    symmetry. apply Z.mod_mod_divide. exists 10. reflexivity.
Qed.

End FormatFacts.

Section SummaryFacts.

Context {World : Type}.

(** C10, amended. When the files sorted had the labels [labels], in this
    order, and the byte total lies between 0 and [2^53], [_print_summary]
    prints the number of these files (the sum of the counts), the byte total
    in MiB rounded to two decimals (the integer part, a dot and two digits;
    within half a hundredth of the total divided by [2^20]; 0.00 for no
    bytes), and, if there is a file, one line with a label of greatest count
    and this count, the label met first among those of greatest count;
    without files it prints 0 files and no such line. *)
Theorem print_summary_reports (labels : list string) (st : @state World) :
  stats st = tally labels -> 0 <= total_size_bytes st < 2 ^ 53 ->
  summary_report labels st.
Proof.
  intros Hstats Htotal. unfold summary_report.
  destruct (truediv_mib (total_size_bytes st) Htotal) as (size_mb & Ediv & Hmb).
  set (exact := (inject_Z (total_size_bytes st) / inject_Z (1024 * 1024))%Q) in *.
  assert (Hexact : (0 <= exact)%Q).
  { unfold exact. change (1024 * 1024) with 1048576.
    unfold Qle, Qdiv, Qmult, Qinv, inject_Z. cbn [Qnum Qden]. lia. }
  assert (Hsize : (0 <= size_mb)%Q) by (rewrite Hmb; exact Hexact).
  assert (Hh : round_half_even (size_mb * 100) = round_half_even (exact * 100)).
  { apply nearest_even_comp. rewrite Hmb. reflexivity. }
  exists (round_half_even (exact * 100)).
  assert (Hsum := tally_sum labels). rewrite <- Hstats in Hsum.
  assert (Hprefix : forall most_common,
    (match stats st with
     | [] => most_common = []
     | _ :: _ => exists best, most_common_1 (stats st) = [best] /\
         most_common = ["Most Common Ratio: " +:+ fst best +:+ " ("
                          +:+ pretty (snd best) +:+ " files)"]
     end) ->
    _print_summary st =
      (inr tt,
       State (world st) (stats st) (total_size_bytes st) (log st)
         (stdout st ++
          [nl +:+ bar; "SORT SUMMARY"; bar;
           "Total Files Processed: " +:+ pretty (Z.of_nat (length labels));
           "Total Data handled:    "
             +:+ (pretty (round_half_even (exact * 100) / 100) +:+ "."
                  +:+ pretty (round_half_even (exact * 100) mod 100 / 10)
                  +:+ pretty (round_half_even (exact * 100) mod 10))
             +:+ " MB"]
          ++ most_common ++ [bar +:+ nl]))).
  { intros most_common Hmc.
    rewrite <- Hh, <- (format_2f_digits size_mb Hsize).
    unfold _print_summary, mbind, M_bind, bind, print, ret, lift.
    cbn [world stats total_size_bytes log stdout].
    rewrite Hsum, Ediv.
    destruct (stats st) as [|item rest].
    - subst most_common. cbn [world stats total_size_bytes log stdout].
      rewrite <- !app_assoc. reflexivity.
    - destruct Hmc as (best & Hbest & ->). rewrite Hbest.
      cbn [world stats total_size_bytes log stdout].
      rewrite <- !app_assoc. reflexivity. }
  assert (Hround : 0 <= round_half_even (exact * 100)).
  { apply round_half_even_nonneg.
    apply Qmult_le_0_compat; [exact Hexact|discriminate]. }
  assert (Hzero : total_size_bytes st = 0 -> round_half_even (exact * 100) = 0).
  { intros E. unfold exact. rewrite E. reflexivity. }
  destruct labels as [|l0 labels'] eqn:El.
  - exists []. split; [|split; [assumption|split; [apply hundredths_near|split; [exact Hzero|reflexivity]]]].
    apply Hprefix. rewrite Hstats. reflexivity.
  - rewrite <- El in *.
    destruct (stats st) as [|item rest] eqn:Es.
    { exfalso. rewrite El in Hsum. cbn in Hsum. lia. }
    destruct (most_common_1_first_max item rest) as ([label c] & Hbest & Hmax).
    destruct Hmax as (before & after & Hsplit & Hbefore & Hafter).
    assert (Hin : forall key k, (key, k) ∈ item :: rest -> k = occurrences key labels).
    { intros key k Hk. apply tally_elem. rewrite <- Hstats. exact Hk. }
    assert (Hc : c = occurrences label labels).
    { apply Hin. rewrite Hsplit. apply elem_of_app. right. apply list_elem_of_here. }
    assert (Hlabel : label ∈ labels).
    { apply tally_keys. rewrite <- Hstats, Hsplit, fmap_app. apply elem_of_app.
      right. apply list_elem_of_here. }
    exists ["Most Common Ratio: " +:+ label +:+ " (" +:+ pretty c +:+ " files)"].
    split; [|split; [assumption|split; [apply hundredths_near|split; [exact Hzero|]]]].
    { apply Hprefix. exists (label, c). auto. }
    exists label. rewrite <- Hc. split; [reflexivity|]. split; [assumption|].
    intros other.
    assert (Hpos : 1 <= c).
    { rewrite Hc. unfold occurrences.
      apply list_elem_of_split in Hlabel as (pre & post & ->).
      rewrite filter_app, filter_cons, decide_True, length_app by reflexivity.
      cbn [length]. lia. }
    destruct (decide (other ∈ labels)) as [Hother|Hother].
    + apply tally_keys in Hother. rewrite <- Hstats in Hother.
      apply list_elem_of_fmap in Hother as ([o k] & -> & Hok). cbn [fst].
      pose proof (Hin _ _ Hok) as <-.
      rewrite Hsplit in Hok.
      apply elem_of_app in Hok as [Hok|Hok].
      * rewrite Forall_forall in Hbefore. specialize (Hbefore _ Hok). cbn in Hbefore.
        split; [lia|]. intros _ E. lia.
      * apply elem_of_cons in Hok as [Hok|Hok].
        { injection Hok as -> ->. split; [lia|]. intros Hne. congruence. }
        rewrite Forall_forall in Hafter. specialize (Hafter _ Hok). cbn in Hafter.
        split; [lia|]. intros _ _.
        apply (tally_order labels before.*1 label after.*1 o).
        { rewrite <- Hstats, Hsplit, fmap_app. reflexivity. }
        apply list_elem_of_fmap. exists (o, k). auto.
    + assert (E0 : occurrences other labels = 0).
      { unfold occurrences. clear -Hother.
        induction labels as [|l ls IH]; [reflexivity|].
        rewrite filter_cons. destruct (decide (l = other)) as [->|Hne].
        - exfalso. apply Hother. apply list_elem_of_here.
        - apply IH. intros H. apply Hother. by apply list_elem_of_further. }
      rewrite E0. split; [lia|]. intros _ E. lia.
Qed.

End SummaryFacts.

Lemma print_summary_reports_witness :
  summary_report ["16X9"; "1X1"; "16X9"]
    (State tt (tally ["16X9"; "1X1"; "16X9"]) 3000000 [] []).
Proof.
  apply (print_summary_reports ["16X9"; "1X1"; "16X9"]
           (State tt (tally ["16X9"; "1X1"; "16X9"]) 3000000 [] []));
    [reflexivity|cbn; lia].
Defined.

(** C10, as stated, fails for a total that no float holds: [2^73 + 2^19]
    bytes are 9007199254740992.5 MiB, the quotient of line 131 is rounded
    to 9007199254740992, and the decimals printed are [.00]. *)
Lemma print_summary_rounds_large_totals :
  let st := State tt (tally ["16X9"]) (2 ^ 73 + 2 ^ 19) [] [] in
  (inject_Z (total_size_bytes st) / inject_Z (1024 * 1024)
     == inject_Z 9007199254740992 + (1 # 2))%Q /\
  stdout (snd (_print_summary st)) =
    [nl +:+ bar; "SORT SUMMARY"; bar;
     "Total Files Processed: 1";
     "Total Data handled:    9007199254740992.00 MB";
     "Most Common Ratio: 16X9 (1 files)";
     bar +:+ nl].
Proof. split; vm_compute; reflexivity. Qed.

(* ===================================================================== *)
(** * The run as a whole                                                  *)
(* ===================================================================== *)

Section RunFacts.

Context {World Parser : Type}.
Variable Image_open : World -> path -> result (Z * Z).
Variable createParser : World -> path -> option Parser.
Variable extractMetadata : Parser -> option (gmap string Z).
Variable is_dir : World -> path -> bool.
Variable iterdir : World -> path -> list path.
Variable mkdir_parents : path -> World -> result unit * World.
Variable mkdir : path -> World -> result unit * World.
Variable stat_size : World -> path -> result Z.
Variable move : path -> path -> World -> result unit * World.
Variable copy2 : path -> path -> World -> result unit * World.
Variable self : MediaSorter.

Local Abbreviation for_each :=
  (Pipeline.for_each Image_open createParser extractMetadata mkdir stat_size move copy2 self).
Local Abbreviation run :=
  (Pipeline.run Image_open createParser extractMetadata is_dir iterdir
     mkdir_parents mkdir stat_size move copy2 self).

(** The counter of a run is the tally of the labels of the files it sorted,
    in the order in which it sorted them. *)
Lemma for_each_tally files : forall (st : @state World) labels,
  stats st = tally labels ->
  exists sorted, stats (snd (for_each files st)) = tally (labels ++ sorted).
Proof.
  induction files as [|file rest IH]; intros st labels Hst.
  - exists []. rewrite app_nil_r. exact Hst.
  - rewrite for_each_cons.
    destruct (each_outcome Image_open createParser extractMetadata mkdir stat_size
                move copy2 self file st) as (st1 & E & Hcase).
    rewrite E. cbn [snd].
    destruct Hcase as [[_ ->] | [(_ & e & st0 & _ & Hs & _) | (_ & _ & label & size & Hs & _)]].
    + apply IH, Hst.
    + apply IH. rewrite Hs. exact Hst.
    + destruct (IH st1 (labels ++ [label])) as [sorted Hsorted].
      { rewrite Hs, Hst, tally_snoc. reflexivity. }
      exists (label :: sorted). rewrite Hsorted, <- app_assoc. reflexivity.
Qed.

End RunFacts.

(* ===================================================================== *)
(** * More about the mediant search                                       *)
(* ===================================================================== *)

Import Labels Order Main.

(** X1. For a ratio of at least 0 and any limiter, the pair returned is in
    lowest terms: the greatest common divisor of the numerator and the
    denominator is 1 (also for the sentinel [(1, 0)]). *)
Theorem apply_limiter_lowest_terms (limiter : Z) (ratio_val : Q) :
  (0 <= ratio_val)%Q ->
  exists x y,
    _apply_limiter limiter ratio_val = Some (x, y) /\ Z.gcd x y = 1.
Proof.
  intros Hr.
  destruct (apply_limiter_returns limiter ratio_val) as [result Hres].
  exists (fst result), (snd result).
  split; [rewrite Hres; destruct result; reflexivity|].
  destruct (apply_limiter_final _ _ _ (Qle_0_num _ Hr) Hres) as (lo & up & Hbr & Hstop).
  destruct Hbr as [[Ha Hb Hc Hd'] Hdet _ _ _ _].
  destruct lo as [a b], up as [c d']. cbn [fst snd] in *.
  apply Z.bezout_1_gcd.
  destruct Hstop as [m He|m Hg Hl|m Hg Hl]; subst m;
    unfold mediant_of in *; cbn [fst snd] in *.
  - exists (- d'), c. lia.
  - exists b, (- a). lia.
  - exists (- d'), c. lia.
Qed.

Lemma apply_limiter_lowest_terms_witness :
  exists x y, _apply_limiter 10 (ratio_of 2560 1080) = Some (x, y) /\ Z.gcd x y = 1.
Proof.
  apply (apply_limiter_lowest_terms 10 (ratio_of 2560 1080)). discriminate.
Defined.

(** Equal ratios take the same branches. *)
Lemma loop_same_ratio (limiter : Z) (r r' : Q) :
  (r == r')%Q -> forall fuel lower upper,
  loop limiter r fuel lower upper = loop limiter r' fuel lower upper.
Proof.
  intros Heq. induction fuel as [|fuel IH]; intros lower upper; [reflexivity|].
  cbn [loop]. unfold body, test. rewrite Heq.
  destruct (_ ?= _)%Q; try reflexivity;
    destruct (limiter <? _); try reflexivity; apply IH.
Qed.

Lemma apply_limiter_same_ratio (limiter : Z) (r r' : Q) :
  (r == r')%Q -> _apply_limiter limiter r = _apply_limiter limiter r'.
Proof.
  intros Heq.
  destruct (apply_limiter_returns limiter r) as [res Hres].
  destruct (apply_limiter_returns limiter r') as [res' Hres'].
  rewrite Hres, Hres'. unfold _apply_limiter in *.
  apply (loop_more _ _ _ _ _ _ (turns limiter r')) in Hres.
  apply (loop_more _ _ _ _ _ _ (turns limiter r)) in Hres'.
  rewrite (loop_same_ratio limiter r r' Heq), Nat.add_comm in Hres. congruence.
Qed.

(** X4. Two pictures whose dimensions are proportional
    ([width * height' = width' * height], positive heights) get the same
    fraction, whatever the limiter. *)
Theorem apply_limiter_proportional (limiter width height width' height' : Z) :
  0 < height -> 0 < height' -> width * height' = width' * height ->
  _apply_limiter limiter (ratio_of width height)
  = _apply_limiter limiter (ratio_of width' height').
Proof.
  intros Hh Hh' E. apply apply_limiter_same_ratio.
  destruct (ratio_of_num_den width height ltac:(lia)) as [Hn Hd].
  destruct (ratio_of_num_den width' height' ltac:(lia)) as [Hn' Hd'].
  unfold Qeq. rewrite Hn, Hd, Hn', Hd'. exact E.
Qed.

Lemma apply_limiter_proportional_witness :
  _apply_limiter 10 (ratio_of 1920 1080) = _apply_limiter 10 (ratio_of 1280 720).
Proof.
  apply (apply_limiter_proportional 10 1920 1080 1280 720); lia.
Defined.

Lemma loop_negative (limiter : Z) (ratio_val : Q) :
  Qnum ratio_val < 0 -> forall fuel c d result,
  1 <= c -> 0 <= d ->
  loop limiter ratio_val fuel (0, 1) (c, d) = Some result -> result = (0, 1).
Proof.
  intros Hneg. induction fuel as [|fuel IH]; intros c d result Hc Hd; [discriminate|].
  cbn [loop]. unfold body, mediant_of. rewrite test_cross. cbn [fst snd].
  destruct (Z.compare_spec (Qnum ratio_val * (1 + d)) ((0 + c) * QDen ratio_val)) as [E|E|E];
    try nia.
  destruct (limiter <? 1 + d); [congruence|]. apply IH; lia.
Qed.

(** X5. A negative ratio gives [(0, 1)], whatever the limiter: the lower
    bound never moves. *)
Theorem apply_limiter_negative (limiter : Z) (ratio_val : Q) :
  (ratio_val < 0)%Q -> _apply_limiter limiter ratio_val = Some (0, 1).
Proof.
  intros Hr. destruct (apply_limiter_returns limiter ratio_val) as [result Hres].
  rewrite Hres. f_equal.
  apply (loop_negative limiter ratio_val) in Hres; [assumption| |lia|lia].
  unfold Qlt in Hr. cbn in Hr. lia.
Qed.

Lemma apply_limiter_negative_witness :
  _apply_limiter 10 (ratio_of (-1920) 1080) = Some (0, 1).
Proof.
  apply (apply_limiter_negative 10 (ratio_of (-1920) 1080)). reflexivity.
Defined.

(** ** The search is monotone *)

Section Monotone.

Variable limiter : Z.

Lemma nested_again r lower upper lower' upper' :
  nested lower upper ->
  body limiter r lower upper = Again lower' upper' ->
  nested lower' upper' /\
  ((lower' = mediant_of lower upper /\ upper' = upper) \/
   (lower' = lower /\ upper' = mediant_of lower upper)).
Proof.
  intros [Hs Hdet] Hbody.
  destruct (body_again limiter r _ _ _ _ Hs Hbody) as [Hs' _].
  revert Hbody. unfold body.
  destruct (test r (mediant_of lower upper)); [discriminate| |];
    destruct (limiter <? _); try discriminate; intros [= <- <-];
    (split; [split; [exact Hs'|]|auto]);
    destruct lower as [a b], upper as [c d]; unfold mediant_of; cbn [fst snd] in *; lia.
Qed.

(** The mediant lies between the two bounds. *)
Lemma mediant_between lower upper :
  nested lower upper ->
  below lower (mediant_of lower upper) /\ below (mediant_of lower upper) upper /\
  1 <= snd (mediant_of lower upper).
Proof.
  intros [[Ha Hb Hc Hd] Hdet].
  destruct lower as [a b], upper as [c d]. unfold below, mediant_of. cbn [fst snd] in *.
  repeat split; lia.
Qed.

Lemma nested_halves lower upper :
  nested lower upper ->
  nested lower (mediant_of lower upper) /\ nested (mediant_of lower upper) upper.
Proof.
  intros [[Ha Hb Hc Hd] Hdet].
  destruct lower as [a b], upper as [c d]. unfold nested, mediant_of. cbn [fst snd] in *.
  repeat split; cbn [fst snd]; lia.
Qed.

Lemma below_refl f : below f f.
Proof. unfold below. lia. Qed.

Lemma below_trans f g h :
  below f g -> below g h -> 0 <= snd f -> 1 <= snd g -> 0 <= snd h -> below f h.
Proof.
  unfold below. destruct f as [x1 y1], g as [x2 y2], h as [x3 y3]. cbn [fst snd].
  intros H1 H2 Hy1 Hy2 Hy3.
  apply (Z.mul_le_mono_pos_l _ _ y2); [lia|].
  assert (x1 * y2 * y3 <= x2 * y1 * y3) by (apply Z.mul_le_mono_nonneg_r; lia).
  assert (x2 * y3 * y1 <= x3 * y2 * y1) by (apply Z.mul_le_mono_nonneg_r; lia).
  lia.
Qed.

(** What the loop returns lies between the bounds it started from. *)
Lemma loop_within r fuel : forall lower upper f,
  nested lower upper ->
  loop limiter r fuel lower upper = Some f ->
  below lower f /\ below f upper /\ 0 <= snd f.
Proof.
  induction fuel as [|fuel IH]; intros lower upper f Hn; [discriminate|].
  cbn [loop].
  destruct (mediant_between _ _ Hn) as (Hlm & Hmu & Hm).
  pose proof Hn as [[Ha Hb Hc Hd] Hdet].
  destruct (body limiter r lower upper) as [res|lower' upper'] eqn:Hbody.
  - intros [= <-]. revert Hbody. unfold body.
    destruct (test r (mediant_of lower upper));
      [|destruct (limiter <? _); [|discriminate]..]; intros [= <-].
    + repeat split; [assumption..|lia].
    + repeat split; [unfold below; lia| |lia].
      destruct lower as [a b], upper as [c d]. unfold below. cbn [fst snd] in *. lia.
    + repeat split; [|unfold below; lia|lia].
      destruct lower as [a b], upper as [c d]. unfold below. cbn [fst snd] in *. lia.
  - intros Hloop.
    destruct (nested_again _ _ _ _ _ Hn Hbody) as [Hn' [[-> ->]|[-> ->]]];
      destruct (IH _ _ _ Hn' Hloop) as (H1 & H2 & H3).
    + repeat split; [|assumption..].
      apply (below_trans _ (mediant_of lower upper)); try assumption; lia.
    + repeat split; [assumption| |assumption].
      apply (below_trans _ (mediant_of lower upper)); try assumption; lia.
Qed.

(** A greater ratio never takes a lower branch of the test. *)
Lemma test_monotone (r r' : Q) m :
  (r <= r')%Q -> 1 <= snd m ->
  match test r m, test r' m with
  | Gt, Gt | Eq, Gt | Eq, Eq | Lt, _ => True
  | _, _ => False
  end.
Proof.
  intros Hle Hm. destruct m as [n d]. rewrite !test_cross. cbn [fst snd] in *.
  unfold Qle in Hle.
  assert (Qnum r * QDen r' * d <= Qnum r' * QDen r * d)
    by (apply Z.mul_le_mono_nonneg_r; lia).
  destruct (Z.compare_spec (Qnum r * d) (n * QDen r)) as [E|E|E];
    destruct (Z.compare_spec (Qnum r' * d) (n * QDen r')) as [E'|E'|E']; try exact I;
    exfalso.
  - assert (Qnum r' * d * QDen r < n * QDen r' * QDen r)
      by (apply Z.mul_lt_mono_pos_r; lia).
    nia.
  - assert (n * QDen r * QDen r' < Qnum r * d * QDen r')
      by (apply Z.mul_lt_mono_pos_r; lia).
    nia.
  - assert (n * QDen r * QDen r' < Qnum r * d * QDen r')
      by (apply Z.mul_lt_mono_pos_r; lia).
    assert (Qnum r' * d * QDen r < n * QDen r' * QDen r)
      by (apply Z.mul_lt_mono_pos_r; lia).
    nia.
Qed.

(** With the same bounds to start from, a greater ratio gives a greater
    or equal fraction. *)
Lemma loop_monotone (r r' : Q) fuel :
  (r <= r')%Q -> forall lower upper f f',
  nested lower upper ->
  loop limiter r fuel lower upper = Some f ->
  loop limiter r' fuel lower upper = Some f' ->
  below f f'.
Proof.
  intros Hle. induction fuel as [|fuel IH]; intros lower upper f f' Hn; [discriminate|].
  cbn [loop]. unfold body.
  destruct (mediant_between _ _ Hn) as (Hlm & Hmu & Hm).
  destruct (nested_halves _ _ Hn) as [Hnl Hnu].
  pose proof Hn as [[Ha Hb Hc Hd] Hdet].
  pose proof (test_monotone r r' _ Hle Hm) as Ht.
  set (m := mediant_of lower upper) in *.
  assert (Hlu : below lower upper).
  { apply (below_trans _ m); try assumption; lia. }
  destruct (test r m), (test r' m); try contradiction;
    destruct (limiter <? snd m).
  all: intros Hf Hf'; simplify_eq; try apply below_refl; try assumption.
  all: try (exact (IH _ _ _ _ Hnl Hf Hf')).
  all: try (exact (IH _ _ _ _ Hnu Hf Hf')).
  all: try (destruct (loop_within _ _ _ _ _ Hnu Hf') as (? & ? & ?); assumption).
  all: try (destruct (loop_within _ _ _ _ _ Hnl Hf) as (? & ? & ?); assumption).
  destruct (loop_within _ _ _ _ _ Hnl Hf) as (? & ? & ?).
  destruct (loop_within _ _ _ _ _ Hnu Hf') as (? & ? & ?).
  apply (below_trans _ m); assumption.
Qed.

End Monotone.

Lemma nested_init : nested (0, 1) (1, 0).
Proof. split; [apply shape_init|reflexivity]. Qed.

(** X6. For a limiter of at least 1, the fraction returned grows with the
    ratio: if [0 <= r <= r'] then the fraction returned for [r] is at most
    the one returned for [r']. *)
Theorem apply_limiter_monotone (limiter : Z) (r r' : Q) :
  1 <= limiter -> (0 <= r)%Q -> (r <= r')%Q ->
  exists f f',
    _apply_limiter limiter r = Some f /\
    _apply_limiter limiter r' = Some f' /\
    (value f <= value f')%Q.
Proof.
  intros Hlim Hr Hle.
  assert (Hr' : (0 <= r')%Q) by (eapply Qle_trans; eassumption).
  destruct (apply_limiter_returns limiter r) as [f Hf].
  destruct (apply_limiter_returns limiter r') as [f' Hf'].
  exists f, f'. split; [assumption|]. split; [assumption|].
  destruct (apply_limiter_final _ _ _ (Qle_0_num _ Hr) Hf) as (lo & up & Hbr & Hstop).
  destruct (stop_bounds _ _ _ _ _ Hlim Hbr Hstop) as (_ & Hy & _).
  destruct (apply_limiter_final _ _ _ (Qle_0_num _ Hr') Hf') as (lo' & up' & Hbr' & Hstop').
  destruct (stop_bounds _ _ _ _ _ Hlim Hbr' Hstop') as (_ & Hy' & _).
  unfold _apply_limiter in Hf, Hf'.
  apply (loop_more _ _ _ _ _ _ (turns limiter r')) in Hf.
  apply (loop_more _ _ _ _ _ _ (turns limiter r)) in Hf'.
  rewrite Nat.add_comm in Hf'.
  pose proof (loop_monotone limiter r r' _ Hle _ _ _ _ nested_init Hf Hf') as Hb.
  unfold below in Hb. unfold Qle, value. cbn [Qnum Qden].
  rewrite !Z2Pos.id by lia. exact Hb.
Qed.

Lemma apply_limiter_monotone_witness :
  exists f f',
    _apply_limiter 10 (ratio_of 1920 1080) = Some f /\
    _apply_limiter 10 (ratio_of 2560 1080) = Some f' /\
    (value f <= value f')%Q.
Proof.
  apply (apply_limiter_monotone 10 (ratio_of 1920 1080) (ratio_of 2560 1080));
    [lia|discriminate|discriminate].
Defined.

(* ===================================================================== *)
(** * More about the output directory and [main]                          *)
(* ===================================================================== *)

Lemma string_app_assoc s t u : (s +:+ t) +:+ u = s +:+ t +:+ u.
Proof.
  induction s as [|c s IH]; [reflexivity|].
  change (String c ((s +:+ t) +:+ u) = String c (s +:+ t +:+ u)). by rewrite IH.
Qed.

Lemma string_app_nil_r s : s +:+ "" = s.
Proof.
  induction s as [|c s IH]; [reflexivity|].
  change (String c (s +:+ "") = String c s). by rewrite IH.
Qed.

Lemma string_app_nonempty s t : t <> "" -> s +:+ t <> s.
Proof.
  intros Ht E. apply Ht.
  apply (String.app_inj s). by rewrite E, string_app_nil_r.
Qed.

Section AllocatorExtras.

Variable fs : gset path.
Variable target_path : path.
Variable limiter : Z.

(** Every candidate is a child of the parent of the target whose name is
    that of the target followed by a non-empty suffix. *)
Lemma generate_unique_path_shape r :
  _generate_unique_path fs target_path limiter = Some r ->
  exists rest, rest <> "" /\ r = joinpath (parent target_path) (name target_path +:+ rest).
Proof.
  unfold _generate_unique_path, exists_. case_bool_decide as Hin; cbn [negb].
  - intros Hr. destruct (search_some _ _ _ _ _ _ Hr) as (n & _ & -> & _).
    unfold numbered, base_name. eexists. split; [|rewrite !string_app_assoc; reflexivity].
    discriminate.
  - intros [= <-]. unfold base_name. eexists. split; [|reflexivity]. discriminate.
Qed.

Lemma generate_unique_path_sibling :
  exists r,
    _generate_unique_path fs target_path limiter = Some r /\
    (r ∉ fs) /\ parent r = parent target_path /\ r <> target_path.
Proof.
  destruct (generate_unique_path_fresh fs target_path limiter) as (r & Hr & Hfresh).
  exists r. split; [assumption|]. split; [assumption|].
  destruct (generate_unique_path_shape r Hr) as (rest & Hrest & ->).
  unfold joinpath, parent. split; [apply removelast_last|].
  intros E. apply (f_equal name) in E. unfold name at 1 in E.
  rewrite last_last in E. by apply string_app_nonempty in E.
Qed.

(** Where the path returned is: the parent of the target joined with the
    base name, or with a numbered one. *)
Lemma generate_unique_path_named :
  exists r,
    _generate_unique_path fs target_path limiter = Some r /\
    (r ∉ fs) /\ r <> target_path /\
    (r = joinpath (parent target_path) (base_name target_path limiter) \/
     exists n, 1 <= n /\ r = numbered target_path limiter n) /\
    (joinpath (parent target_path) (base_name target_path limiter) ∉ fs ->
     r = joinpath (parent target_path) (base_name target_path limiter)).
Proof.
  destruct generate_unique_path_sibling as (r & Hr & Hfresh & _ & Hne).
  exists r. repeat split; try assumption.
  - destruct (decide (joinpath (parent target_path) (base_name target_path limiter) ∈ fs))
      as [Hin|Hfree].
    + right. destruct (generate_unique_path_least fs target_path limiter Hin)
        as (n & Hn & Hcall & _).
      exists n. split; [assumption|]. congruence.
    + left. revert Hr. unfold _generate_unique_path, exists_.
      rewrite bool_decide_eq_false_2 by assumption. cbn [negb]. congruence.
  - intros Hfree. revert Hr. unfold _generate_unique_path, exists_.
    rewrite bool_decide_eq_false_2 by assumption. cbn [negb]. congruence.
Qed.

(** X7. Whatever exists on disk and whether or not the base name is taken,
    [_generate_unique_path] returns a path; this path does not exist and is
    not the target; it is the parent of the target, as [pathlib] gives it,
    joined with the base name or with the base name followed by [" (n)"] for
    some [n >= 1], and with the base name itself when that one is free.
    (The parent of the default target [.] is [.]: the directory is then
    made inside the target.) *)
Theorem generate_unique_path_new_sibling :
  exists r,
    _generate_unique_path fs target_path limiter = Some r /\
    (r ∉ fs) /\ r <> target_path /\
    (r = joinpath (parent target_path) (base_name target_path limiter) \/
     exists n, 1 <= n /\ r = numbered target_path limiter n) /\
    (joinpath (parent target_path) (base_name target_path limiter) ∉ fs ->
     r = joinpath (parent target_path) (base_name target_path limiter)).
Proof. exact generate_unique_path_named. Qed.

End AllocatorExtras.

(* ===================================================================== *)
(** * More about the run                                                  *)
(* ===================================================================== *)

Lemma records_cons lvl r l :
  records lvl (r :: l)
  = ((if decide (fst r = lvl) then 1 else 0) + records lvl l)%nat.
Proof.
  unfold records. rewrite filter_cons.
  destruct (decide (fst r = lvl)); reflexivity.
Qed.

Lemma values_sum_foldl_incr sorted : forall stats,
  values_sum (foldl (fun stats label => incr label stats) stats sorted)
  = values_sum stats + Z.of_nat (length sorted).
Proof.
  induction sorted as [|label sorted IH]; intros stats; cbn [foldl length]; [lia|].
  rewrite IH, values_sum_incr. lia.
Qed.

Section LoopExtras.

Context {World Parser : Type}.
Variable Image_open : World -> path -> result (Z * Z).
Variable createParser : World -> path -> option Parser.
Variable extractMetadata : Parser -> option (gmap string Z).
Variable mkdir : path -> World -> result unit * World.
Variable stat_size : World -> path -> result Z.
Variable move : path -> path -> World -> result unit * World.
Variable copy2 : path -> path -> World -> result unit * World.
Variable self : MediaSorter.

Local Abbreviation probe := (fun (st : @state World) file =>
  Probe._get_dimensions (Image_open (world st)) (createParser (world st))
    extractMetadata file).
Local Abbreviation process :=
  (Pipeline.process Image_open createParser extractMetadata mkdir stat_size move copy2 self).
Local Abbreviation each :=
  (Pipeline.each Image_open createParser extractMetadata mkdir stat_size move copy2 self).
Local Abbreviation for_each :=
  (Pipeline.for_each Image_open createParser extractMetadata mkdir stat_size move copy2 self).

(** A file that is sorted adds the size [stat] gave for it. *)
Lemma process_sorted_size file (st st' : @state World) :
  process file st = (inr tt, st') ->
  exists w z, stat_size w file = inr z /\
              total_size_bytes st' = total_size_bytes st + z.
Proof.
  unfold Pipeline.process, mbind, M_bind, bind, lift, on_world, truediv,
    apply_limiter, count, add_size, logging, ret, raise.
  intros H. repeat (case_match; simplify_eq/=); eauto.
Qed.

(** What the loop leaves behind: it returns normally, every file with a
    valid extension has added one record to the log, and the counter has
    been incremented once for each [INFO] record. *)
Lemma for_each_trace files : forall st : @state World,
  exists st' added sorted,
    for_each files st = (inr tt, st') /\
    log st' = log st ++ added /\
    length added = length (filter (fun f => is_valid f = true) files) /\
    stats st' = foldl (fun stats label => incr label stats) (stats st) sorted /\
    length sorted = records INFO added /\
    stdout st' = stdout st.
Proof.
  induction files as [|file rest IH]; intros st.
  - exists st, [], []. cbn. rewrite app_nil_r. auto 10.
  - rewrite for_each_cons.
    destruct (each_outcome Image_open createParser extractMetadata mkdir stat_size
                move copy2 self file st) as (st1 & E & Hcase).
    rewrite E. cbn [snd].
    destruct (IH st1) as (st' & added & sorted & Hrun & Hlog & Hlen & Hstats & Hsorted & Hout).
    rewrite filter_cons.
    destruct Hcase as [[Hv ->] | [(Hv & e & st0 & _ & Hs & _ & Ho & _ & Hl)
                                 | (Hv & _ & label & size & Hs & _ & Hl & Ho)]];
      rewrite Hv.
    + rewrite decide_False by discriminate.
      exists st', added, sorted. auto 10.
    + rewrite decide_True by reflexivity.
      exists st', ((ERROR, "Skipping " +:+ name file +:+ ": " +:+ exn_msg e) :: added), sorted.
      rewrite Hlog, Hl, Hstats, Hs, Hout, Ho, <- app_assoc. cbn [length].
      repeat split; try congruence.
      rewrite records_cons. cbn [fst]. rewrite decide_False by discriminate. lia.
    + rewrite decide_True by reflexivity.
      exists st', ((INFO, "Sorted: " +:+ name file +:+ " -> " +:+ label) :: added), (label :: sorted).
      rewrite Hlog, Hl, Hstats, Hs, Hout, Ho, <- app_assoc. cbn [length foldl].
      repeat split; try congruence.
      rewrite records_cons. cbn [fst]. rewrite decide_True by reflexivity. lia.
Qed.

(** X8. The loop over any list of files returns normally and only appends
    to the log: exactly one record for each file with a valid extension,
    none for the others; the sum of the counts grows by the number of
    [INFO] records added, and nothing is printed. *)
Theorem for_each_one_record_per_file files (st : @state World) :
  exists st' added,
    for_each files st = (inr tt, st') /\
    log st' = log st ++ added /\
    length added = length (filter (fun f => is_valid f = true) files) /\
    values_sum (stats st') - values_sum (stats st) = Z.of_nat (records INFO added) /\
    stdout st' = stdout st.
Proof.
  destruct (for_each_trace files st)
    as (st' & added & sorted & Hrun & Hlog & Hlen & Hstats & Hsorted & Hout).
  exists st', added. repeat split; try assumption.
  rewrite Hstats, values_sum_foldl_incr, Hsorted. lia.
Qed.

(** X11. If [stat] never reports a negative size, the byte total never
    decreases during the loop. *)
Theorem for_each_total_grows files (st : @state World) :
  (forall w file z, stat_size w file = inr z -> 0 <= z) ->
  total_size_bytes st <= total_size_bytes (snd (for_each files st)).
Proof.
  intros Hsize. revert st. induction files as [|file rest IH]; intros st.
  - cbn. lia.
  - rewrite for_each_cons.
    destruct (each_outcome Image_open createParser extractMetadata mkdir stat_size
                move copy2 self file st) as (st1 & E & Hcase).
    rewrite E. cbn [snd]. specialize (IH st1).
    destruct Hcase as [[_ ->] | [(_ & e & st0 & _ & _ & Ht & _) | (_ & Hp & _)]].
    + exact IH.
    + lia.
    + destruct (process_sorted_size _ _ _ Hp) as (w & z & Hz & Ht).
      specialize (Hsize _ _ _ Hz). lia.
Qed.

(** X12. For a file with a valid extension: if the probe raises, or if it
    reports a height of 0 (the division of line 101 raises), the turn of
    the loop ends normally with one [ERROR] record carrying the message,
    and nothing else changes; in particular no directory is made and
    nothing is copied or moved. *)
Theorem each_skips_unprobed file (st : @state World) :
  is_valid file = true ->
  (forall e, probe st file = inl e ->
     each file st =
       (inr tt, State (world st) (stats st) (total_size_bytes st)
                  (log st ++ [(ERROR, "Skipping " +:+ name file +:+ ": " +:+ exn_msg e)])
                  (stdout st))) /\
  (forall width, probe st file = inr (width, 0) ->
     each file st =
       (inr tt, State (world st) (stats st) (total_size_bytes st)
                  (log st ++ [(ERROR, "Skipping " +:+ name file +:+ ": division by zero")])
                  (stdout st))).
Proof.
  intros Hv. unfold Pipeline.each. rewrite Hv. cbn [negb].
  unfold try_except, Pipeline.process, mbind, M_bind, bind, lift, truediv, raise, logging.
  split.
  - intros e ->. reflexivity.
  - intros width ->. reflexivity.
Qed.

End LoopExtras.

Lemma for_each_total_grows_witness :
  total_size_bytes (initial tt)
  <= total_size_bytes (snd (Example.for_each Example.files (initial tt))).
Proof.
  apply (for_each_total_grows Example.Image_open Example.createParser
           Example.extractMetadata Example.mkdir Example.stat_size Example.copy
           Example.copy Example.sorter Example.files (initial tt)).
  intros w file z [= <-]. lia.
Defined.

Lemma each_skips_unprobed_witness :
  (forall e,
     Probe._get_dimensions (Example.Image_open tt) (Example.createParser tt)
       Example.extractMetadata ["in"; "bad.jpg"] = inl e ->
     Pipeline.each Example.Image_open Example.createParser Example.extractMetadata
       Example.mkdir Example.stat_size Example.copy Example.copy Example.sorter
       ["in"; "bad.jpg"] (initial tt) =
       (inr tt, State tt [] 0 [(ERROR, "Skipping bad.jpg: " +:+ exn_msg e)] [])) /\
  (forall width,
     Probe._get_dimensions (Example.Image_open tt) (Example.createParser tt)
       Example.extractMetadata ["in"; "bad.jpg"] = inr (width, 0) ->
     Pipeline.each Example.Image_open Example.createParser Example.extractMetadata
       Example.mkdir Example.stat_size Example.copy Example.copy Example.sorter
       ["in"; "bad.jpg"] (initial tt) =
       (inr tt, State tt [] 0 [(ERROR, "Skipping bad.jpg: division by zero")] [])).
Proof.
  apply (each_skips_unprobed Example.Image_open Example.createParser
           Example.extractMetadata Example.mkdir Example.stat_size Example.copy
           Example.copy Example.sorter ["in"; "bad.jpg"] (initial tt)).
  reflexivity.
Defined.

Section RunExtras.

Context {World Parser : Type}.
Variable Image_open : World -> path -> result (Z * Z).
Variable createParser : World -> path -> option Parser.
Variable extractMetadata : Parser -> option (gmap string Z).
Variable is_dir : World -> path -> bool.
Variable iterdir : World -> path -> list path.
Variable mkdir_parents : path -> World -> result unit * World.
Variable mkdir : path -> World -> result unit * World.
Variable stat_size : World -> path -> result Z.

Local Abbreviation process := (fun move copy2 =>
  Pipeline.process Image_open createParser extractMetadata mkdir stat_size move copy2).
Local Abbreviation for_each := (fun move copy2 =>
  Pipeline.for_each Image_open createParser extractMetadata mkdir stat_size move copy2).
Local Abbreviation run := (fun move copy2 =>
  Pipeline.run Image_open createParser extractMetadata is_dir iterdir
    mkdir_parents mkdir stat_size move copy2).

Lemma for_each_ext self move copy2 move' copy2' :
  (forall file st, process move copy2 self file st = process move' copy2' self file st) ->
  forall files st, for_each move copy2 self files st = for_each move' copy2' self files st.
Proof.
  intros Hp. induction files as [|file rest IH]; intros st; [reflexivity|].
  cbn [Pipeline.for_each]. unfold mbind, M_bind, bind, Pipeline.each.
  destruct (is_valid file); cbn [negb]; [|apply IH].
  unfold try_except. rewrite (Hp file st).
  destruct (Pipeline.process _ _ _ _ _ _ _ _ _ _) as [[e|[]] st1]; cbn; apply IH.
Qed.

Lemma run_ext self move copy2 move' copy2' :
  (forall file st, process move copy2 self file st = process move' copy2' self file st) ->
  forall st, run move copy2 self st = run move' copy2' self st.
Proof.
  intros Hp st. unfold Pipeline.run, mbind, M_bind, bind, read, on_world, logging.
  destruct (negb _); [reflexivity|].
  destruct (mkdir_parents _ _) as [[e|[]] w1]; [reflexivity|].
  cbn [world stats total_size_bytes log stdout].
  rewrite (for_each_ext _ _ _ _ _ Hp). reflexivity.
Qed.

(** X14. The mode decides which relocation is ever used: in copy mode the
    run is the same whatever [shutil.move] would do, and in move mode it is
    the same whatever [shutil.copy2] would do. *)
Theorem run_uses_one_relocation self move copy2 other :
  (move_files self = false ->
   forall st, run move copy2 self st = run other copy2 self st) /\
  (move_files self = true ->
   forall st, run move copy2 self st = run move other self st).
Proof.
  split; intros Hmode; apply run_ext; intros file st;
    unfold Pipeline.process; rewrite Hmode; reflexivity.
Qed.

Variable move : path -> path -> World -> result unit * World.
Variable copy2 : path -> path -> World -> result unit * World.
Variable existing : World -> gset path.

(** X16. [main], from the parsed arguments on: a sorter is made with the
    target, the limiter and the mode given; its output directory does not
    exist in the file system as it is then, is not the target, and is the
    parent of the target, as [pathlib] gives it, joined with the base name
    or with a numbered one; and this sorter is run on that file system with
    empty counters. *)
Theorem main_runs_on_new_output (args : Namespace) (w : World) :
  exists sorter,
    Main.main Image_open createParser extractMetadata is_dir iterdir
      mkdir_parents mkdir stat_size move copy2 existing args w
      = Some (run move copy2 sorter (initial w)) /\
    target_path sorter = directory args /\
    Pipeline.limiter sorter = limiter_arg args /\
    move_files sorter = move_arg args /\
    (output_path sorter ∉ existing w) /\
    output_path sorter <> directory args /\
    (output_path sorter
       = joinpath (parent (directory args))
           (base_name (directory args) (limiter_arg args)) \/
     exists n, 1 <= n /\
       output_path sorter = numbered (directory args) (limiter_arg args) n).
Proof.
  destruct (generate_unique_path_named (existing w) (directory args) (limiter_arg args))
    as (r & Hr & Hfresh & Hne & Hname & _).
  exists (Sorter (directory args) (limiter_arg args) (move_arg args) r).
  unfold Main.main, __init__. rewrite Hr. cbn. auto 10.
Qed.

End RunExtras.

(* ===================================================================== *)
(** * More about the probe and the labels                                 *)
(* ===================================================================== *)

(** X17. If the decoder and the metadata of a file only report positive
    values, the width and the height that the probe returns for it are
    positive. *)
Theorem get_dimensions_positive {Parser : Type}
    (Image_open : path -> result (Z * Z))
    (createParser : path -> option Parser)
    (extractMetadata : Parser -> option (gmap string Z))
    (file_path : path) (width height : Z) :
  (forall w h, Image_open file_path = inr (w, h) -> 0 < w /\ 0 < h) ->
  (forall parser metadata key v,
     createParser file_path = Some parser ->
     extractMetadata parser = Some metadata ->
     metadata !! key = Some v -> 0 < v) ->
  _get_dimensions Image_open createParser extractMetadata file_path
    = inr (width, height) ->
  0 < width /\ 0 < height.
Proof.
  intros Himg Hmd. unfold _get_dimensions, from_metadata, has, get.
  intros H. repeat (case_match; simplify_eq/=); eauto.
Qed.

Lemma get_dimensions_positive_witness : 0 < 1920 /\ 0 < 1080.
Proof.
  apply (get_dimensions_positive (Parser := unit)
           (fun _ => inr (1920, 1080)) (fun _ => Some tt)
           (fun _ => Some {[ "width" := 1280; "height" := 720 ]})
           ["in"; "a.jpg"] 1920 1080).
  - intros w h [= <- <-]. lia.
  - intros parser metadata key v _ [= <-] Hv.
    apply lookup_insert_Some in Hv as [[_ <-]|[_ Hv]]; [lia|].
    apply lookup_singleton_Some in Hv as [_ <-]. lia.
  - reflexivity.
Defined.

Lemma pretty_N_char_not_X (n : N) : pretty_N_char n <> "X"%char.
Proof. unfold pretty_N_char. repeat case_match; discriminate. Qed.

Lemma pretty_N_go_no_X (x : N) : forall s, ~ has_X s -> ~ has_X (pretty_N_go x s).
Proof.
  induction (N.lt_wf_0 x) as [x _ IH]; intros s Hs.
  destruct (decide (x = 0)%N) as [->|Hx].
  - rewrite pretty_N_go_0. exact Hs.
  - rewrite pretty_N_go_step by lia. apply IH.
    + apply N.div_lt; lia.
    + cbn. intros [E|H]; [by apply pretty_N_char_not_X in E|contradiction].
Qed.

(** The decimal form of an integer has no letter. *)
Lemma pretty_Z_no_X (z : Z) : ~ has_X (pretty z).
Proof.
  assert (Hn : forall n : N, ~ has_X (pretty n)).
  { intros n. unfold pretty, pretty_N. case_decide.
    - cbn. intros [E|[]]. discriminate.
    - apply pretty_N_go_no_X. cbn. tauto. }
  destruct z as [|p|p]; unfold pretty, pretty_Z.
  - cbn. intros [E|[]]. discriminate.
  - apply (Hn (Npos p)).
  - cbn. intros [E|H]; [discriminate|]. by apply (Hn (Npos p)).
Qed.

Lemma split_at_X s1 : forall s2 t1 t2,
  ~ has_X s1 -> ~ has_X s2 ->
  s1 +:+ String "X" t1 = s2 +:+ String "X" t2 -> s1 = s2 /\ t1 = t2.
Proof.
  induction s1 as [|c s1 IH]; intros [|c' s2] t1 t2 H1 H2; cbn.
  - intros [= ->]. auto.
  - intros [= <- _]. exfalso. apply H2. cbn. auto.
  - intros [= -> _]. exfalso. apply H1. cbn. auto.
  - intros [= -> E]. destruct (IH s2 t1 t2) as [-> ->]; auto.
    + intros H. apply H1. cbn. auto.
    + intros H. apply H2. cbn. auto.
Qed.

(** X18. Two fractions have the same folder name only if they are the same
    pair: no two ratios share a folder or a key of the counter. *)
Theorem ratio_folder_inj (x y x' y' : Z) :
  ratio_folder x y = ratio_folder x' y' <-> x = x' /\ y = y'.
Proof.
  split; [|intros [-> ->]; reflexivity].
  unfold ratio_folder. intros E.
  apply split_at_X in E as [Ex Ey]; [|apply pretty_Z_no_X..].
  split; by apply (inj pretty).
Qed.
